(** * Word-Lookup: the dictionary engine of [app.js]

    A shallow embedding of the classes [TrieNode] and [WordDictionary]
    (insertWord, searchWord, getAutoSuggestions, #dfs, editDistance,
    getSpellingCorrections) and the properties of the engine.

    Conventions of the embedding.
    - A JavaScript string is the list of its UTF-16 code units.  [for ... of]
      over a string yields its code points, each one a string of one or two
      code units ([codePoints]); [s.length] and [s[i]] count code units.
    - A [Map] is a list of key/value pairs in insertion order with unique
      keys, a [Set] a duplicate-free list in insertion order.
    - A method is a function into [completion]: either a normal result or
      the exception thrown.  Reading a property of [undefined] throws
      [TypeError].
    - The trie is a tree whose nodes are owned by their parent only, so the
      in-place writes through the [current] pointer are rendered as the
      rebuilding of the path walked.
    - [String.prototype.toLowerCase] and [String.prototype.localeCompare]
      are host builtins: they are the two operations of the class
      [Builtins]; what a theorem needs of them is a hypothesis of it. *)

From Stdlib Require Import ZArith String Ascii.
From stdpp Require Import base tactics option list numbers sorting.

Local Open Scope Z_scope.

(** ** JavaScript values *)

Module JS.

(** UTF-16 code units. *)
Abbreviation jsstring := (list N).

(** The string with the code units of an ASCII literal. *)
Definition lit (s : string) : jsstring :=
  map N_of_ascii (list_ascii_of_string s).

Definition isHighSurrogate (u : N) : bool :=
  ((55296 <=? u) && (u <=? 56319))%N.

Definition isLowSurrogate (u : N) : bool :=
  ((56320 <=? u) && (u <=? 57343))%N.

(** The values produced by [for (const ch of s)]: a high surrogate followed
    by a low surrogate is one element, every other code unit is one element. *)
Fixpoint codePoints (s : jsstring) : list jsstring :=
  match s with
  | [] => []
  | u :: t =>
      match t with
      | v :: r =>
          if isHighSurrogate u && isLowSurrogate v
          then [u; v] :: codePoints r
          else [u] :: codePoints t
      | [] => [[u]]
      end
  end.

(** Truthiness of a string: the empty string is the only falsy one. *)
Definition truthy (s : jsstring) : bool :=
  match s with [] => false | _ => true end.

(** [a || b] on strings. *)
Definition or_else (a b : jsstring) : jsstring :=
  if truthy a then a else b.

Inductive exn := TypeError | IndexOutOfRange.

Inductive completion (A : Type) : Type :=
  | Normal (a : A)
  | Throw (e : exn).
Global Arguments Normal {A} a.
Global Arguments Throw {A} e.

Definition bind {A B} (c : completion A) (k : A → completion B) : completion B :=
  match c with
  | Normal a => k a
  | Throw e => Throw e
  end.

Definition returns {A} (c : completion A) : Prop := ∃ a, c = Normal a.

(** *** Map *)

Definition Map (V : Type) := list (jsstring * V).

Fixpoint Map_get {V} (k : jsstring) (m : Map V) : option V :=
  match m with
  | [] => None
  | (k', v) :: m' => if decide (k' = k) then Some v else Map_get k m'
  end.

Definition Map_has {V} (k : jsstring) (m : Map V) : bool :=
  match Map_get k m with Some _ => true | None => false end.

(** [m.set(k, v)]: an existing key keeps its place, a new one goes last. *)
Fixpoint Map_set {V} (k : jsstring) (v : V) (m : Map V) : Map V :=
  match m with
  | [] => [(k, v)]
  | (k', v') :: m' =>
      if decide (k' = k) then (k, v) :: m' else (k', v') :: Map_set k v m'
  end.

(** *** Set *)

Definition Set_has (x : jsstring) (s : list jsstring) : bool :=
  bool_decide (x ∈ s).

Definition Set_add (x : jsstring) (s : list jsstring) : list jsstring :=
  if Set_has x s then s else s ++ [x].

(** [Array.from(new Set(l))]: the first occurrence of each element, in order. *)
Fixpoint Set_from_loop (l seen : list jsstring) : list jsstring :=
  match l with
  | [] => seen
  | x :: l' => Set_from_loop l' (Set_add x seen)
  end.

Definition Array_from_Set (l : list jsstring) : list jsstring :=
  Set_from_loop l [].

(** *** Array *)

(** [l.slice(0, n)] for an integer [n]; a negative [n] counts from the end. *)
Definition Array_slice0 {A} (l : list A) (n : Z) : list A :=
  if n <? 0 then take (Z.to_nat (Z.max 0 (Z.of_nat (length l) + n))) l
  else take (Z.to_nat n) l.

(** [l.sort(cmp)].  The language asks for a stable sort and leaves the
    algorithm to the engine; here the insertion sort that engines run on
    short arrays.  Each element in turn, the pivot, is put in the sorted
    part on its left, in front of the first [y] with [cmp pivot y]
    negative, so that it stays behind the elements it ties with.  Where
    the comparator contradicts itself on a pair, [cmp pivot y] not
    negative and [cmp y pivot] positive, the language leaves the order
    open, and the pivot goes in front of [y] as well. *)
Definition notAfter {A} (cmp : A → A → Z) : relation A :=
  λ x y, cmp x y ≤ 0.

Fixpoint insertPivot {A} (cmp : A → A → Z) (pivot : A) (sorted : list A)
    : list A :=
  match sorted with
  | [] => [pivot]
  | y :: rest =>
      if decide (cmp pivot y < 0) then pivot :: sorted
      else if decide (cmp y pivot ≤ 0) then y :: insertPivot cmp pivot rest
      else pivot :: sorted
  end.

Definition Array_sort {A} (cmp : A → A → Z) (l : list A) : list A :=
  fold_left (λ sorted pivot, insertPivot cmp pivot sorted) l [].

(** [for (let i = lo; i <= hi; i++) body], the loop state threaded through:
    [count] iterations from [i]. *)
Fixpoint forLoop {St} (i : nat) (count : nat)
    (body : nat → St → completion St) (s : St) : completion St :=
  match count with
  | O => Normal s
  | S c => bind (body i s) (forLoop (S i) c body)
  end.

Definition forUpTo {St} (lo hi : nat)
    (body : nat → St → completion St) (s : St) : completion St :=
  forLoop lo (S hi - lo) body s.

End JS.

Import JS.

Notation "'let!' x ':=' c 'in' k" := (JS.bind c (λ x, k))
  (at level 10, x name, c at level 100, k at level 200, only parsing).

(** ** Host builtins *)

Class Builtins := {
  toLowerCase : jsstring → jsstring;
  localeCompare : jsstring → jsstring → Z
}.

(** What the theorems below assume of the builtins, each where it is used.
    Lower-casing a lower-cased string changes nothing. *)
Definition lower_idempotent `{Builtins} : Prop :=
  ∀ s, toLowerCase (toLowerCase s) = toLowerCase s.

(** The empty string is its own lower case. *)
Definition lower_empty `{Builtins} : Prop :=
  toLowerCase [] = [].

(** [localeCompare] is a consistent comparator: a total preorder. *)
Definition compare_consistent `{Builtins} : Prop :=
  (∀ a b, localeCompare a b ≤ 0 ∨ localeCompare b a ≤ 0) ∧
  (∀ a b c, localeCompare a b ≤ 0 → localeCompare b c ≤ 0 →
            localeCompare a c ≤ 0).

(** A host for the concrete runs: ASCII letters are lower-cased, strings are
    compared code unit by code unit. *)
Definition asciiLower (u : N) : N :=
  if ((65 <=? u) && (u <=? 90))%N then (u + 32)%N else u.

Fixpoint unitCompare (a b : jsstring) : Z :=
  match a, b with
  | [], [] => 0
  | [], _ :: _ => -1
  | _ :: _, [] => 1
  | x :: a', y :: b' =>
      if (x <? y)%N then -1 else if (y <? x)%N then 1 else unitCompare a' b'
  end.

Definition asciiHost : Builtins :=
  {| toLowerCase := map asciiLower; localeCompare := unitCompare |}.

(** ** class TrieNode *)

#[warnings="-register-all"]
Inductive TrieNode : Type :=
  mkTrieNode {
    children : list (jsstring * TrieNode);
    isEndOfWord : bool;
    definition : jsstring
  }.

(** Induction on tries: the property holds of a node when it holds of its
    children. *)
Fixpoint TrieNode_induction (P : TrieNode → Prop)
    (step : ∀ kids e def,
        Forall (λ kv, P (snd kv)) kids → P (mkTrieNode kids e def))
    (node : TrieNode) {struct node} : P node :=
  match node with
  | mkTrieNode kids e def =>
      step kids e def
        ((fix all (l : list (jsstring * TrieNode))
            : Forall (λ kv, P (snd kv)) l :=
            match l with
            | [] => @List.Forall_nil _ _
            | kv :: l' =>
                @List.Forall_cons _ _ kv l' (TrieNode_induction P step (snd kv)) (all l')
            end) kids)
  end.

(** [new TrieNode()] *)
Definition newTrieNode : TrieNode :=
  {| children := []; isEndOfWord := false; definition := [] |}.

(** ** class WordDictionary *)

Record WordDictionary := mkWordDictionary {
  root : TrieNode;
  wordList : list jsstring;
  wordsSet : list jsstring
}.

(** [new WordDictionary()] *)
Definition newWordDictionary : WordDictionary :=
  {| root := newTrieNode; wordList := []; wordsSet := [] |}.

(** The objects [{ found, definition }] returned by [searchWord]. *)
Module Lookup.
Record result := mk {
  found : bool;
  definition : jsstring
}.
End Lookup.

(** The update branch of [insertWord]:
    [for (const ch of lowerWord) cur = cur.children.get(ch);
     if (cur) cur.definition = definition || cur.definition;]
    A missing edge makes [cur] undefined: the next iteration then throws,
    and after the last one the guard skips the write. *)
Fixpoint updateDefinition (chars : list jsstring) (def : jsstring)
    (cur : TrieNode) : completion TrieNode :=
  match chars with
  | [] =>
      Normal {| children := children cur;
                isEndOfWord := isEndOfWord cur;
                definition := or_else def (definition cur) |}
  | ch :: rest =>
      match Map_get ch (children cur) with
      | Some next =>
          let! next' := updateDefinition rest def next in
          Normal {| children := Map_set ch next' (children cur);
                    isEndOfWord := isEndOfWord cur;
                    definition := definition cur |}
      | None =>
          match rest with
          | [] => Normal cur
          | _ :: _ => Throw TypeError
          end
      end
  end.

(** The normal insert:
    [for (let char of lowerWord) {
       if (!current.children.has(char)) current.children.set(char, new TrieNode());
       current = current.children.get(char); }
     current.isEndOfWord = true; current.definition = definition;] *)
Fixpoint insertPath (chars : list jsstring) (def : jsstring)
    (current : TrieNode) : completion TrieNode :=
  match chars with
  | [] =>
      Normal {| children := children current;
                isEndOfWord := true;
                definition := def |}
  | char :: rest =>
      let kids :=
        if negb (Map_has char (children current))
        then Map_set char newTrieNode (children current)
        else children current in
      match Map_get char kids with
      | Some next =>
          let! next' := insertPath rest def next in
          Normal {| children := Map_set char next' kids;
                    isEndOfWord := isEndOfWord current;
                    definition := definition current |}
      | None => Throw TypeError
      end
  end.

(** The guarded walk shared by [searchWord] and [getAutoSuggestions]:
    [for (let char of lower) {
       if (!current.children.has(char)) return ...;
       current = current.children.get(char); }]
    [None] is the early return. *)
Fixpoint descend (chars : list jsstring) (current : TrieNode)
    : completion (option TrieNode) :=
  match chars with
  | [] => Normal (Some current)
  | char :: rest =>
      if negb (Map_has char (children current)) then Normal None
      else match Map_get char (children current) with
           | Some next => descend rest next
           | None => Throw TypeError
           end
  end.

(** [#dfs(node, prefix, suggestions, maxSuggestions)]; the array
    [suggestions] is threaded through. *)
Fixpoint dfs (node : TrieNode) (prefix : jsstring)
    (suggestions : list jsstring) (maxSuggestions : Z) : list jsstring :=
  if Z.of_nat (length suggestions) >=? maxSuggestions then suggestions
  else
    let suggestions1 :=
      if isEndOfWord node then suggestions ++ [prefix] else suggestions in
    fold_left
      (λ acc entry, dfs (snd entry) (prefix ++ fst entry) acc maxSuggestions)
      (children node) suggestions1.

(** *** editDistance *)

Definition dp_get (dp : list (list Z)) (i j : nat) : completion Z :=
  match dp !! i with
  | None => Throw TypeError
  | Some row =>
      match row !! j with
      | None => Throw IndexOutOfRange
      | Some v => Normal v
      end
  end.

(** [dp[i][j] = v].  A write past the end of a row, which JavaScript would
    answer by growing the row, is reported as [IndexOutOfRange]. *)
Definition dp_set (dp : list (list Z)) (i j : nat) (v : Z)
    : completion (list (list Z)) :=
  match dp !! i with
  | None => Throw TypeError
  | Some row =>
      if decide (j < length row)%nat
      then Normal (<[i := <[j := v]> row]> dp)
      else Throw IndexOutOfRange
  end.

(** The body of the inner loop:
    [dp[i][j] = a[i - 1] === b[j - 1] ? dp[i - 1][j - 1]
       : 1 + Math.min(dp[i - 1][j], dp[i][j - 1], dp[i - 1][j - 1]);] *)
Definition fillCell (a b : jsstring) (i j : nat) (dp : list (list Z))
    : completion (list (list Z)) :=
  if decide (a !! (i - 1)%nat = b !! (j - 1)%nat) then
    let! d := dp_get dp (i - 1) (j - 1) in
    dp_set dp i j d
  else
    let! x := dp_get dp (i - 1) j in
    let! y := dp_get dp i (j - 1) in
    let! z := dp_get dp (i - 1) (j - 1) in
    dp_set dp i j (1 + Z.min x (Z.min y z)).

Definition editDistance (a b : jsstring) : completion Z :=
  let m := length a in
  let n := length b in
  let dp := replicate (m + 1) (replicate (n + 1) 0) in
  let! dp := forUpTo 0 m (λ i dp, dp_set dp i 0 (Z.of_nat i)) dp in
  let! dp := forUpTo 0 n (λ j dp, dp_set dp 0 j (Z.of_nat j)) dp in
  let! dp := forUpTo 1 m (λ i dp, forUpTo 1 n (fillCell a b i) dp) dp in
  dp_get dp m n.

(** The objects [{ word, distance }] pushed on [candidates]. *)
Module Candidate.
Record t := mk {
  word : jsstring;
  distance : Z
}.
End Candidate.

Section engine.
Context `{Builtins}.

Definition insertWord (d : WordDictionary) (word def : jsstring)
    : completion WordDictionary :=
  let lowerWord := toLowerCase word in
  if Set_has lowerWord (wordsSet d) then
    if truthy def then
      let! root' := updateDefinition (codePoints lowerWord) def (root d) in
      Normal {| root := root'; wordList := wordList d; wordsSet := wordsSet d |}
    else Normal d
  else
    let! root' := insertPath (codePoints lowerWord) def (root d) in
    Normal {| root := root';
              wordList := wordList d ++ [lowerWord];
              wordsSet := Set_add lowerWord (wordsSet d) |}.

Definition searchWord (d : WordDictionary) (word : jsstring)
    : completion Lookup.result :=
  let lowerWord := toLowerCase word in
  let! r := descend (codePoints lowerWord) (root d) in
  match r with
  | None => Normal {| Lookup.found := false; Lookup.definition := [] |}
  | Some current =>
      Normal {| Lookup.found := isEndOfWord current;
                Lookup.definition := definition current |}
  end.

Definition getAutoSuggestions (d : WordDictionary) (prefix : jsstring)
    (maxSuggestions : Z) : completion (list jsstring) :=
  let lowerPrefix := toLowerCase prefix in
  let! r := descend (codePoints lowerPrefix) (root d) in
  match r with
  | None => Normal []
  | Some current =>
      let suggestions := dfs current lowerPrefix [] (maxSuggestions * 3) in
      let unique := Array_from_Set suggestions in
      Normal (Array_slice0 unique maxSuggestions)
  end.

(** [for (let dictWord of this.wordList) { ... candidates.push(...) }] *)
Fixpoint scanCandidates (lowerWord : jsstring) (maxDistance : Z)
    (words : list jsstring) (candidates : list Candidate.t)
    : completion (list Candidate.t) :=
  match words with
  | [] => Normal candidates
  | dictWord :: rest =>
      let! distance := editDistance lowerWord dictWord in
      scanCandidates lowerWord maxDistance rest
        (if (distance >? 0) && (distance <=? maxDistance)
         then candidates ++ [Candidate.mk dictWord distance]
         else candidates)
  end.

(** [(a, b) => a.distance - b.distance || a.word.localeCompare(b.word)] *)
Definition byDistanceThenWord (a b : Candidate.t) : Z :=
  let diff := Candidate.distance a - Candidate.distance b in
  if diff =? 0 then localeCompare (Candidate.word a) (Candidate.word b)
  else diff.

(** [for (const c of candidates) { if (!seen.has(c.word)) { seen.add(c.word);
     unique.push(c); if (unique.length >= maxSuggestions) break; } }] *)
Fixpoint uniqueLoop (candidates : list Candidate.t) (seen : list jsstring)
    (unique : list Candidate.t) (maxSuggestions : Z) : list Candidate.t :=
  match candidates with
  | [] => unique
  | c :: rest =>
      if negb (Set_has (Candidate.word c) seen) then
        let seen' := Set_add (Candidate.word c) seen in
        let unique' := unique ++ [c] in
        if Z.of_nat (length unique') >=? maxSuggestions then unique'
        else uniqueLoop rest seen' unique' maxSuggestions
      else uniqueLoop rest seen unique maxSuggestions
  end.

Definition getSpellingCorrections (d : WordDictionary) (word : jsstring)
    (maxDistance maxSuggestions : Z) : completion (list jsstring) :=
  let lowerWord := toLowerCase word in
  let! candidates := scanCandidates lowerWord maxDistance (wordList d) [] in
  let sorted := Array_sort byDistanceThenWord candidates in
  let unique := uniqueLoop sorted [] [] maxSuggestions in
  Normal (map Candidate.word unique).

(** A sequence of [insertWord] calls. *)
Fixpoint insertAll (inserts : list (jsstring * jsstring))
    (d : WordDictionary) : completion WordDictionary :=
  match inserts with
  | [] => Normal d
  | (w, def) :: rest =>
      let! d' := insertWord d w def in
      insertAll rest d'
  end.

End engine.

(** ** Reference definitions *)

(** The Levenshtein distance of §4.3, by recursion on the letters: the
    distance to the empty string is the length, equal letters cost nothing,
    otherwise one more than the best of a deletion, an insertion and a
    substitution. *)
Fixpoint lev (a b : jsstring) : Z :=
  match a with
  | [] => Z.of_nat (length b)
  | x :: a' =>
      (fix inner (b : jsstring) : Z :=
         match b with
         | [] => Z.of_nat (length a)
         | y :: b' =>
             if decide (x = y) then lev a' b'
             else 1 + Z.min (lev a' b) (Z.min (inner b') (lev a' b'))
         end) b
  end.

(** What [dp[i][j]] holds once it is filled: the distance between the first
    [i] code units of [a] and the first [j] of [b], read from their ends. *)
Definition levPrefix (a b : jsstring) (i j : nat) : Z :=
  lev (reverse (take i a)) (reverse (take j b)).

(** [dp[i][j]], when the row and the cell exist. *)
Definition cell (dp : list (list Z)) (i j : nat) : option Z :=
  match dp !! i with
  | Some row => row !! j
  | None => None
  end.

(** [dp] has [m + 1] rows of [n + 1] cells. *)
Definition shape (m n : nat) (dp : list (list Z)) : Prop :=
  length dp = S m ∧ Forall (λ row, length row = S n) dp.

(** The cells selected by [P] hold their distance. *)
Definition filled (a b : jsstring) (P : nat → nat → Prop)
    (dp : list (list Z)) : Prop :=
  ∀ i j, P i j → cell dp i j = Some (levPrefix a b i j).

(** The cells filled when the loops reach row [i] and column [j]: the
    first column, the first row, the rows filled so far, and in the
    row being filled the cells before [j]. *)
Definition doneBefore (i j : nat) (i' j' : nat) : Prop :=
  i' = 0%nat ∨ j' = 0%nat ∨ (i' < i)%nat ∨ (i' = i ∧ j' < j)%nat.

(** *** The trie as a set of paths *)

(** The node reached from [node] by consuming [path], if every edge exists. *)
Fixpoint nodeAt (path : list jsstring) (node : TrieNode) : option TrieNode :=
  match path with
  | [] => Some node
  | ch :: rest =>
      match Map_get ch (children node) with
      | Some next => nodeAt rest next
      | None => None
      end
  end.

(** The definition held by the terminal node at [path], if there is one. *)
Definition entry (node : TrieNode) (path : list jsstring) : option jsstring :=
  match nodeAt path node with
  | Some n => if isEndOfWord n then Some (definition n) else None
  | None => None
  end.

(** The paths of the terminal nodes below [node], in the order a depth-first
    walk meets them: the node itself, then its children in [Map] order. *)
Fixpoint terminalPaths (node : TrieNode) : list (list jsstring) :=
  (if isEndOfWord node then [[]] else []) ++
  flat_map (λ e, map (cons (fst e)) (terminalPaths (snd e))) (children node).

(** The words a depth-first walk from [node] collects when nothing stops it. *)
Definition terminals (node : TrieNode) (prefix : jsstring) : list jsstring :=
  map (λ path, prefix ++ concat path) (terminalPaths node).

(** Every [Map] of the trie has each key once. *)
#[warnings="-register-all"]
Inductive uniqueKeys : TrieNode → Prop :=
  | uniqueKeys_node kids e def :
      NoDup (map fst kids) →
      Forall (λ kv, uniqueKeys (snd kv)) kids →
      uniqueKeys (mkTrieNode kids e def).

(** The words below the node at the characters of [lowerPrefix], in the
    order of the walk. *)
Definition subtreeWords (d : WordDictionary) (lowerPrefix : jsstring)
    : list jsstring :=
  match nodeAt (codePoints lowerPrefix) (root d) with
  | Some sub => terminals sub lowerPrefix
  | None => []
  end.

(** The string ends in the first half of a surrogate pair. *)
Definition endsInHighSurrogate (s : jsstring) : bool :=
  match last s with
  | Some u => isHighSurrogate u
  | None => false
  end.

(** The slots left in [suggestions] under the cap. *)
Definition budget (cap : Z) (suggestions : list jsstring) : nat :=
  Z.to_nat (cap - Z.of_nat (length suggestions)).

Section reference.
Context `{Builtins}.

(** The definition a word is expected to have after a sequence of inserts,
    by the update semantics of §4.1: the first insertion of the normalized
    word sets it, a later one with a non-empty definition overwrites it, a
    later one with an empty definition changes nothing. *)
Fixpoint expectedDefinition (inserts : list (jsstring * jsstring))
    (w : jsstring) (current : option jsstring) : option jsstring :=
  match inserts with
  | [] => current
  | (x, def) :: rest =>
      if decide (toLowerCase x = w) then
        expectedDefinition rest w
          (Some (match current with
                 | None => def
                 | Some old => if truthy def then def else old
                 end))
      else expectedDefinition rest w current
  end.

(** The normalized words of a sequence of inserts, each once, in the order
    of their first insertion; [seen] are the words already listed. *)
Fixpoint firstInsertions (inserts : list (jsstring * jsstring))
    (seen : list jsstring) : list jsstring :=
  match inserts with
  | [] => []
  | (x, _) :: rest =>
      if decide (toLowerCase x ∈ seen) then firstInsertions rest seen
      else toLowerCase x :: firstInsertions rest (seen ++ [toLowerCase x])
  end.

(** The normalized words of a sequence of inserts. *)
Definition normalizedWords (inserts : list (jsstring * jsstring))
    : list jsstring :=
  (λ e, toLowerCase (fst e)) <$> inserts.

(** The invariant of the dictionary. *)
Record consistent (d : WordDictionary) : Prop := {
  consistent_set : wordsSet d = wordList d;
  consistent_once : NoDup (wordList d);
  consistent_lower : ∀ w, w ∈ wordList d → ∃ x, w = toLowerCase x;
  consistent_trie : ∀ path,
    is_Some (entry (root d) path) ↔ ∃ w, w ∈ wordList d ∧ codePoints w = path;
  consistent_keys : uniqueKeys (root d)
}.

(** The stored words that have the characters of [lowerPrefix] as their
    first characters. *)
Definition completions (d : WordDictionary) (lowerPrefix : jsstring)
    : list jsstring :=
  filter (λ w, codePoints lowerPrefix `prefix_of` codePoints w) (wordList d).

(** The candidate that [getSpellingCorrections] keeps for a stored word. *)
Definition candidateOf (lowerWord : jsstring) (maxDistance : Z)
    (dictWord : jsstring) : option Candidate.t :=
  let distance := lev (reverse lowerWord) (reverse dictWord) in
  if (distance >? 0) && (distance <=? maxDistance)
  then Some (Candidate.mk dictWord distance) else None.

(** The order of the corrections: by distance from [lowerWord], then by
    [localeCompare]. *)
Definition rankedBefore (lowerWord w1 w2 : jsstring) : Prop :=
  ∃ k1 k2, editDistance lowerWord w1 = Normal k1 ∧
           editDistance lowerWord w2 = Normal k2 ∧
           (k1 < k2 ∨ (k1 = k2 ∧ localeCompare w1 w2 ≤ 0)).

End reference.

(** ** Sample runs *)

(** Three inserts of one word in different cases. *)
Definition catInserts : list (jsstring * jsstring) :=
  [(lit "Cat", lit "feline"); (lit "cat", []); (lit "CAT", lit "a pet")].

(** The vocabulary of the end-to-end scenarios A and B of §8. *)
Definition scenarioInserts : list (jsstring * jsstring) :=
  [(lit "apple", lit "a fruit"); (lit "apply", lit "to request");
   (lit "app", lit "a program")].

(** The same two words inserted in the two orders. *)
Definition baInserts : list (jsstring * jsstring) :=
  [(lit "b", []); (lit "a", [])].

Definition abInserts : list (jsstring * jsstring) :=
  [(lit "a", []); (lit "b", [])].

(** Two words that begin with the same surrogate pair's first half: the
    characters U+1F600 and U+1F601, stored as D83D DE00 and D83D DE01. *)
Definition faceInserts : list (jsstring * jsstring) :=
  [([55357%N; 56832%N], lit "grinning face");
   ([55357%N; 56833%N], lit "beaming face")].

(** ** Further reference definitions *)

(** Only terminal nodes carry a definition. *)
#[warnings="-register-all"]
Inductive tidy : TrieNode → Prop :=
  | tidy_node kids e def :
      (e = false → def = []) →
      Forall (λ kv, tidy (snd kv)) kids →
      tidy (mkTrieNode kids e def).

(** The answer of [searchWord] read from the entry of the trie. *)
Definition lookupOf (e : option jsstring) : Lookup.result :=
  match e with
  | Some def => Lookup.mk true def
  | None => Lookup.mk false []
  end.

(** The test of [getSpellingCorrections] on one stored word:
    [distance > 0 && distance <= maxDistance]. *)
Definition isNear (lowerWord : jsstring) (maxDistance : Z)
    (dictWord : jsstring) : bool :=
  match editDistance lowerWord dictWord with
  | Normal distance => (distance >? 0) && (distance <=? maxDistance)
  | Throw _ => false
  end.

(** The stored words that pass the test. *)
Definition nearWords (d : WordDictionary) (lowerWord : jsstring)
    (maxDistance : Z) : list jsstring :=
  filter (λ w, isNear lowerWord maxDistance w = true) (wordList d).

(** The dictionary of the scenarios of §8, on the host of the concrete
    runs. *)
Definition scenarioDictionary : WordDictionary :=
  match insertAll (H := asciiHost) scenarioInserts newWordDictionary with
  | Normal d => d
  | Throw _ => newWordDictionary
  end.

(** ** Loading the dictionary *)

(** The code units that [String.prototype.trim] removes: the white space
    and the line terminators of the language. *)
Definition isWhiteSpace (u : N) : bool :=
  ((9 <=? u) && (u <=? 13) || (u =? 32) || (u =? 160) || (u =? 5760) ||
   (8192 <=? u) && (u <=? 8202) || (u =? 8232) || (u =? 8233) ||
   (u =? 8239) || (u =? 8287) || (u =? 12288) || (u =? 65279))%N.

Fixpoint trimStart (s : jsstring) : jsstring :=
  match s with
  | [] => []
  | u :: t => if isWhiteSpace u then trimStart t else s
  end.

Definition trimEnd (s : jsstring) : jsstring :=
  reverse (trimStart (reverse s)).

(** [s.trim()] *)
Definition trim (s : jsstring) : jsstring :=
  trimEnd (trimStart s).

(** [parts.join(sep)] on an array of strings. *)
Fixpoint Array_join (sep : jsstring) (parts : list jsstring) : jsstring :=
  match parts with
  | [] => []
  | p :: rest =>
      match rest with
      | [] => p
      | _ :: _ => p ++ sep ++ Array_join sep rest
      end
  end.

(** [for (const x of l) body] and [l.forEach(body)], the state threaded
    through. *)
Fixpoint forEach {A St} (body : St → A → completion St) (l : list A)
    (s : St) : completion St :=
  match l with
  | [] => Normal s
  | x :: rest => let! s' := body s x in forEach body rest s'
  end.

(** The objects [{ word, definition }] of the API; a property may be
    missing. *)
Module ApiItem.
Record t := mk {
  word : option jsstring;
  definition : option jsstring
}.
End ApiItem.

Section loading.
Context `{Builtins}.

(** The body of the loop of [loadFromCsvFile], on the dictionary and the
    counter [total]:
    [const word = row[0]?.trim();
     const definition = row.slice(1).join(" ").trim();
     if (word) { this.insertWord(word, definition); total++; }] *)
Definition csvRow (state : WordDictionary * Z) (row : list jsstring)
    : completion (WordDictionary * Z) :=
  let word := trim <$> row !! 0%nat in
  let def := trim (Array_join (lit " ") (drop 1 row)) in
  match word with
  | Some w =>
      if truthy w then
        let! d' := insertWord (fst state) w def in
        Normal (d', snd state + 1)
      else Normal state
  | None => Normal state
  end.

(** [parsed.data.forEach(row => ...)] from [total = 0]. *)
Definition loadCsvRows (data : list (list jsstring)) (d : WordDictionary)
    : completion (WordDictionary * Z) :=
  forEach csvRow data (d, 0).

(** The body of the loop of [loadFromApi]:
    [const word = item.word?.trim();
     const definition = (item.definition || "").trim();
     if (word) { this.insertWord(word, definition); total++; }] *)
Definition apiItem (state : WordDictionary * Z) (item : ApiItem.t)
    : completion (WordDictionary * Z) :=
  let word := trim <$> ApiItem.word item in
  let def :=
    trim (match ApiItem.definition item with
          | Some s => or_else s []
          | None => []
          end) in
  match word with
  | Some w =>
      if truthy w then
        let! d' := insertWord (fst state) w def in
        Normal (d', snd state + 1)
      else Normal state
  | None => Normal state
  end.

(** [for (const item of data) ...] from [total = 0]. *)
Definition loadApiItems (data : list ApiItem.t) (d : WordDictionary)
    : completion (WordDictionary * Z) :=
  forEach apiItem data (d, 0).

(** The call of [insertWord] that a row of the CSV file leads to, if any. *)
Definition csvEntry (row : list jsstring) : option (jsstring * jsstring) :=
  match row !! 0%nat with
  | Some field =>
      if truthy (trim field)
      then Some (trim field, trim (Array_join (lit " ") (drop 1 row)))
      else None
  | None => None
  end.

(** The call of [insertWord] that an item of the API leads to, if any. *)
Definition apiEntry (item : ApiItem.t) : option (jsstring * jsstring) :=
  match ApiItem.word item with
  | Some field =>
      if truthy (trim field)
      then Some (trim field,
                 trim (match ApiItem.definition item with
                       | Some s => s
                       | None => []
                       end))
      else None
  | None => None
  end.

End loading.

(** The item of the API with the first two fields of a row. *)
Definition apiOfRow (row : list jsstring) : ApiItem.t :=
  ApiItem.mk (row !! 0%nat) (row !! 1%nat).

(** Rows of the sample runs: a word with a definition in two fields, a
    blank first field, an empty row, the word again in another case. *)
Definition sampleRows : list (list jsstring) :=
  [[lit " Apple "; lit "a"; lit "fruit "]; [lit "  "; lit "lost"]; [];
   [lit "APPLE"]; [lit "pear"; lit "a fruit too"]].

(** ** The script that merges A.csv to Z.csv *)

(** [String.fromCharCode(i) + '.csv'] *)
Definition fileName (i : nat) : jsstring :=
  N.of_nat i :: lit ".csv".

(** The state of the loop: [mergedContent] and the lines given to
    [console.warn]. *)
Record MergeState := mkMergeState {
  mergedContent : jsstring;
  warned : list jsstring
}.

(** The line feed ['\n']. *)
Definition lineFeed : jsstring := [10%N].

(** The body of the loop.  [files] gives the content of the files that
    exist: [fs.existsSync] and [fs.readFileSync] of the path of [fileName].
    [if (fs.existsSync(filePath)) {
       const content = fs.readFileSync(filePath, 'utf8').trim();
       if (content) mergedContent += content + '\n';
     } else console.warn(`Skipping missing file: ${fileName}`);] *)
Definition mergeStep (files : jsstring → option jsstring) (i : nat)
    (st : MergeState) : completion MergeState :=
  match files (fileName i) with
  | Some raw =>
      let content := trim raw in
      if truthy content then
        Normal {| mergedContent := mergedContent st ++ content ++ lineFeed;
                  warned := warned st |}
      else Normal st
  | None =>
      Normal {| mergedContent := mergedContent st;
                warned := warned st ++
                          [lit "Skipping missing file: " ++ fileName i] |}
  end.

(** The script: the content written to [dictionary.csv] and the warnings.
    [for (let i = 65; i <= 90; i++) { ... }
     fs.writeFileSync(outputFile, mergedContent.trim(), 'utf8');] *)
Definition mergeCsv (files : jsstring → option jsstring)
    : completion (jsstring * list jsstring) :=
  let! st := forUpTo 65 90 (mergeStep files) (mkMergeState [] []) in
  Normal (trim (mergedContent st), warned st).

(** What a file gives to the merge: its trimmed content, unless the file is
    missing or blank. *)
Definition fileContent (files : jsstring → option jsstring) (i : nat)
    : option jsstring :=
  match files (fileName i) with
  | Some raw => if truthy (trim raw) then Some (trim raw) else None
  | None => None
  end.

(** The string is empty or begins with a code unit that [trim] keeps. *)
Definition startsClean (s : jsstring) : Prop :=
  match s with
  | [] => True
  | u :: _ => isWhiteSpace u = false
  end.

(** The string has no white space at either end. *)
Definition clean (s : jsstring) : Prop :=
  startsClean s ∧ startsClean (reverse s).

(** * Properties *)

(** [map] written as stdpp's [fmap], to use its lemmas. *)
Tactic Notation "as_fmap" :=
  change (map ?f ?l) with (f <$> l).
Tactic Notation "as_fmap" "in" hyp(H) :=
  change (map ?f ?l) with (f <$> l) in H.

(** ** The completion monad and the loops *)

Lemma bind_Normal {A B} (c : completion A) (k : A → completion B) b :
  JS.bind c k = Normal b ↔ ∃ a, c = Normal a ∧ k a = Normal b.
Proof.
  destruct c as [a|e]; simpl; split.
  - eauto.
  - by intros (a' & [= <-] & ?).
  - done.
  - by intros (? & ? & _).
Qed.

Lemma forLoop_invariant {St} (I : nat → St → Prop) body count :
  ∀ i s,
    I i s →
    (∀ k s', (i ≤ k < i + count)%nat → I k s' →
       ∃ s'', body k s' = Normal s'' ∧ I (S k) s'') →
    ∃ s', forLoop i count body s = Normal s' ∧ I (i + count)%nat s'.
Proof.
  induction count as [|c IH]; intros i s Hi Hbody; simpl.
  - exists s. by rewrite Nat.add_0_r.
  - destruct (Hbody i s) as (s1 & -> & H1); [lia | done |]. simpl.
    destruct (IH (S i) s1) as (s2 & -> & H2); [done | |].
    + intros k s' Hk. apply Hbody. lia.
    + exists s2. split; [done|]. by replace (i + S c)%nat with (S i + c)%nat by lia.
Qed.

Lemma forUpTo_invariant {St} (I : nat → St → Prop) body lo hi s :
  (lo ≤ S hi)%nat →
  I lo s →
  (∀ k s', (lo ≤ k ≤ hi)%nat → I k s' →
     ∃ s'', body k s' = Normal s'' ∧ I (S k) s'') →
  ∃ s', forUpTo lo hi body s = Normal s' ∧ I (S hi) s'.
Proof.
  intros Hle Hlo Hbody. unfold forUpTo.
  destruct (forLoop_invariant I body (S hi - lo) lo s) as (s' & Hs' & HI);
    [done | |].
  - intros k s' Hk. apply Hbody. lia.
  - exists s'. split; [done|]. by replace (S hi) with (lo + (S hi - lo))%nat by lia.
Qed.

(** ** The distance *)

Lemma lev_nil_r a : lev a [] = Z.of_nat (length a).
Proof. by destruct a. Qed.

Lemma lev_cons x a y b :
  lev (x :: a) (y :: b) =
    if decide (x = y) then lev a b
    else 1 + Z.min (lev a (y :: b)) (Z.min (lev (x :: a) b) (lev a b)).
Proof. done. Qed.

Lemma lev_same a : lev a a = 0.
Proof.
  induction a as [|x a IH]; [done|].
  rewrite lev_cons. by case_decide.
Qed.

Lemma lev_sym a b : lev a b = lev b a.
Proof.
  revert b. induction a as [|x a IHa]; intros b.
  - by rewrite lev_nil_r.
  - induction b as [|y b IHb]; [done|].
    rewrite !lev_cons, IHb, !IHa.
    repeat case_decide; try congruence. lia.
Qed.

Lemma levPrefix_0_r a b i :
  (i ≤ length a)%nat → levPrefix a b i 0 = Z.of_nat i.
Proof.
  intros Hi. unfold levPrefix. rewrite take_0, lev_nil_r.
  rewrite length_reverse, length_take. lia.
Qed.

Lemma levPrefix_0_l a b j :
  (j ≤ length b)%nat → levPrefix a b 0 j = Z.of_nat j.
Proof.
  intros Hj. unfold levPrefix. rewrite take_0. simpl.
  rewrite length_reverse, length_take. lia.
Qed.

Lemma levPrefix_S a b i j :
  (i < length a)%nat → (j < length b)%nat →
  levPrefix a b (S i) (S j) =
    if decide (a !! i = b !! j) then levPrefix a b i j
    else 1 + Z.min (levPrefix a b i (S j))
                   (Z.min (levPrefix a b (S i) j) (levPrefix a b i j)).
Proof.
  intros Hi Hj.
  destruct (lookup_lt_is_Some_2 a i Hi) as [x Hx].
  destruct (lookup_lt_is_Some_2 b j Hj) as [y Hy].
  unfold levPrefix.
  rewrite (take_S_r a i x Hx), (take_S_r b j y Hy), !reverse_snoc, lev_cons.
  rewrite Hx, Hy. repeat case_decide; congruence.
Qed.

(** ** The table of [editDistance] *)

Lemma shape_replicate m n : shape m n (replicate (m + 1) (replicate (n + 1) 0)).
Proof.
  split.
  - rewrite length_replicate. lia.
  - apply Forall_replicate. rewrite length_replicate. lia.
Qed.

Lemma shape_row m n dp i :
  shape m n dp → (i ≤ m)%nat → ∃ row, dp !! i = Some row ∧ length row = S n.
Proof.
  intros [Hlen Hrows] Hi.
  destruct (lookup_lt_is_Some_2 dp i) as [row Hrow]; [lia|].
  exists row. split; [done|].
  by apply (Forall_lookup_1 _ _ _ _ Hrows Hrow).
Qed.

Lemma dp_get_cell dp i j v : cell dp i j = Some v → dp_get dp i j = Normal v.
Proof.
  unfold cell, dp_get. destruct (dp !! i) as [row|]; [|done].
  by intros ->.
Qed.

Lemma dp_set_spec m n dp i j v :
  shape m n dp → (i ≤ m)%nat → (j ≤ n)%nat →
  ∃ dp', dp_set dp i j v = Normal dp' ∧ shape m n dp' ∧
         cell dp' i j = Some v ∧
         ∀ i' j', (i', j') ≠ (i, j) → cell dp' i' j' = cell dp i' j'.
Proof.
  intros Hshape Hi Hj.
  destruct (shape_row m n dp i Hshape Hi) as (row & Hrow & Hlen).
  assert (i < length dp)%nat as Hlt by (apply lookup_lt_is_Some; eauto).
  unfold dp_set. rewrite Hrow. rewrite decide_True by lia.
  eexists. split; [done|]. split; [|split].
  - destruct Hshape as [Hl Hrows]. split.
    + by rewrite length_insert.
    + apply Forall_insert; [done|]. by rewrite length_insert.
  - unfold cell. rewrite list_lookup_insert_eq by done.
    apply list_lookup_insert_eq. lia.
  - intros i' j' Hne. unfold cell.
    destruct (decide (i' = i)) as [->|Hi'].
    + rewrite list_lookup_insert_eq by done. rewrite Hrow.
      apply list_lookup_insert_ne. congruence.
    + by rewrite list_lookup_insert_ne.
Qed.

(** Writing the right distance in one more cell. *)
Lemma dp_set_filled a b (P Q : nat → nat → Prop) m n dp i j :
  shape m n dp → filled a b P dp → (i ≤ m)%nat → (j ≤ n)%nat →
  (∀ i' j', Q i' j' → P i' j' ∨ (i' = i ∧ j' = j)) →
  ∃ dp', dp_set dp i j (levPrefix a b i j) = Normal dp' ∧
         shape m n dp' ∧ filled a b Q dp'.
Proof.
  intros Hshape Hfilled Hi Hj HQ.
  destruct (dp_set_spec m n dp i j (levPrefix a b i j)) as (dp' & Hset & Hs & Hc & Hother);
    [done..|].
  exists dp'. split; [done|]. split; [done|].
  intros i' j' Hq. destruct (decide ((i', j') = (i, j))) as [[= -> ->]|Hne].
  - done.
  - rewrite Hother by done. apply Hfilled.
    destruct (HQ i' j' Hq) as [?|[-> ->]]; [done|congruence].
Qed.

Lemma filled_weaken a b (P Q : nat → nat → Prop) dp :
  filled a b P dp → (∀ i j, Q i j → P i j) → filled a b Q dp.
Proof. intros HP HQ i j Hq. by apply HP, HQ. Qed.

Lemma fillCell_spec a b (P Q : nat → nat → Prop) dp i j :
  let m := length a in
  let n := length b in
  shape m n dp → filled a b P dp →
  (1 ≤ i ≤ m)%nat → (1 ≤ j ≤ n)%nat →
  P (i - 1)%nat (j - 1)%nat → P (i - 1)%nat j → P i (j - 1)%nat →
  (∀ i' j', Q i' j' → P i' j' ∨ (i' = i ∧ j' = j)) →
  ∃ dp', fillCell a b i j dp = Normal dp' ∧ shape m n dp' ∧ filled a b Q dp'.
Proof.
  intros m n Hshape Hfilled Hi Hj Hd Hu Hl HQ.
  destruct i as [|i]; [lia|]. destruct j as [|j]; [lia|].
  replace (S i - 1)%nat with i in * by lia.
  replace (S j - 1)%nat with j in * by lia.
  pose proof (levPrefix_S a b i j ltac:(lia) ltac:(lia)) as Hrec.
  unfold fillCell.
  replace (S i - 1)%nat with i by lia. replace (S j - 1)%nat with j by lia.
  rewrite (dp_get_cell _ _ _ _ (Hfilled _ _ Hd)).
  destruct (decide (a !! i = b !! j)) as [Heq|Hne]; simpl.
  - rewrite <- Hrec.
    apply (dp_set_filled a b P Q m n); [done | done | lia | lia | done].
  - rewrite (dp_get_cell _ _ _ _ (Hfilled _ _ Hu)). simpl.
    rewrite (dp_get_cell _ _ _ _ (Hfilled _ _ Hl)). simpl.
    rewrite <- Hrec.
    apply (dp_set_filled a b P Q m n); [done | done | lia | lia | done].
Qed.

Lemma editDistance_lev a b :
  editDistance a b = Normal (lev (reverse a) (reverse b)).
Proof.
  unfold editDistance.
  set (m := length a). set (n := length b).
  set (inside := λ i j : nat, (i ≤ m ∧ j ≤ n)%nat).
  (* first column *)
  destruct (forUpTo_invariant
              (λ k dp, shape m n dp ∧
                       filled a b (λ i j, (i < k)%nat ∧ j = 0%nat) dp)
              (λ i dp, dp_set dp i 0 (Z.of_nat i)) 0 m
              (replicate (m + 1) (replicate (n + 1) 0)))
    as (dp1 & -> & Hs1 & Hf1); [lia | | |].
  { split; [apply shape_replicate|]. intros i j [? _]. lia. }
  { intros k dp Hk [Hs Hf]. rewrite <- (levPrefix_0_r a b k) by (fold m; lia).
    destruct (dp_set_filled a b _ (λ i j, (i < S k)%nat ∧ j = 0%nat) m n dp k 0 Hs Hf)
      as (dp' & ? & ? & ?); [lia | lia | | eauto].
    intros i' j' [? ->]. destruct (decide (i' = k)); [by right | left; lia]. }
  simpl.
  (* first row *)
  destruct (forUpTo_invariant
              (λ k dp, shape m n dp ∧
                       filled a b (λ i j, inside i j ∧
                                          (j = 0 ∨ (i = 0 ∧ j < k))%nat) dp)
              (λ j dp, dp_set dp 0 j (Z.of_nat j)) 0 n dp1)
    as (dp2 & -> & Hs2 & Hf2); [lia | | |].
  { split; [done|]. eapply filled_weaken; [exact Hf1|].
    intros i j [[? ?] [->|[_ ?]]]; [|lia]. split; [lia|done]. }
  { intros k dp Hk [Hs Hf]. rewrite <- (levPrefix_0_l a b k) by (fold n; lia).
    destruct (dp_set_filled a b _
                (λ i j, inside i j ∧ (j = 0 ∨ (i = 0 ∧ j < S k))%nat) m n dp 0 k Hs Hf)
      as (dp' & ? & ? & ?); [lia | lia | | eauto].
    intros i' j' [Hin [->|[-> ?]]].
    - left. split; [done|]. by left.
    - destruct (decide (j' = k)); [by right|]. left. split; [done|]. right. lia. }
  simpl.
  (* the rows *)
  destruct (forUpTo_invariant
              (λ k dp, shape m n dp ∧
                       filled a b (λ i j, inside i j ∧ doneBefore k 0 i j) dp)
              (λ i dp, forUpTo 1 n (fillCell a b i) dp) 1 m dp2)
    as (dp3 & -> & Hs3 & Hf3); [lia | | |].
  { split; [done|]. eapply filled_weaken; [exact Hf2|].
    intros i j [Hin Hd]. split; [done|]. unfold doneBefore in Hd.
    destruct Hd as [->|[->|[?|[_ ?]]]]; [ | by left | |lia].
    - destruct (decide (j = 0%nat)); [by left|].
      right. split; [done|]. destruct Hin. lia.
    - assert (i = 0%nat) as -> by lia.
      destruct (decide (j = 0%nat)); [by left|].
      right. split; [done|]. destruct Hin. lia. }
  { intros i dp Hi [Hs Hf].
    destruct (forUpTo_invariant
                (λ k dp, shape m n dp ∧
                         filled a b (λ i' j', inside i' j' ∧ doneBefore i k i' j') dp)
                (fillCell a b i) 1 n dp)
      as (dp' & Hdp' & Hs' & Hf'); [lia | | |].
    - split; [done|]. eapply filled_weaken; [exact Hf|].
      intros i' j' [Hin Hd]. split; [done|]. unfold doneBefore in *.
      destruct Hd as [?|[?|[?|[? ?]]]]; [by left | by right; left | by right; right; left |].
      right; left. lia.
    - intros j dpj Hj [Hsj Hfj].
      apply (fillCell_spec a b
               (λ i' j', inside i' j' ∧ doneBefore i j i' j'));
        [done | done | lia | lia | | | |].
      + split; [unfold inside; lia|]. unfold doneBefore. lia.
      + split; [unfold inside; lia|]. unfold doneBefore. lia.
      + split; [unfold inside; lia|]. unfold doneBefore. lia.
      + intros i' j' [Hin Hd].
        destruct (decide (i' = i ∧ j' = j)) as [?|Hne]; [by right|].
        left. split; [done|]. unfold doneBefore in *. lia.
    - exists dp'. split; [done|]. split; [done|].
      eapply filled_weaken; [exact Hf'|].
      intros i' j' [Hin Hd]. split; [done|]. unfold doneBefore in *.
      destruct Hin. lia. }
  simpl.
  rewrite (dp_get_cell dp3 m n (levPrefix a b m n)).
  - unfold levPrefix, m, n. by rewrite !firstn_all.
  - apply Hf3. split; [unfold inside; lia|].
    unfold doneBefore. lia.
Qed.

Lemma editDistance_same a : editDistance a a = Normal 0.
Proof. by rewrite editDistance_lev, lev_same. Qed.

(** ** Strings and their code points *)

Lemma codePoints_concat s : concat (codePoints s) = s.
Proof.
  assert (∀ n s, (length s ≤ n)%nat → concat (codePoints s) = s) as Hn.
  { clear s. induction n as [|n IH]; intros [|u [|v r]] Hlen; simpl in *;
      try done; try lia.
    destruct (isHighSurrogate u && isLowSurrogate v); simpl.
    - f_equal. f_equal. apply IH. lia.
    - f_equal. apply (IH (v :: r)). simpl. lia. }
  by apply (Hn (length s)).
Qed.

Lemma codePoints_inj s t : codePoints s = codePoints t → s = t.
Proof.
  intros Heq. by rewrite <- (codePoints_concat s), Heq, codePoints_concat.
Qed.

(** Unless a surrogate pair is cut in two, the code points of a
    concatenation are those of its parts. *)
Lemma codePoints_app a b :
  endsInHighSurrogate a = false →
  codePoints (a ++ b) = codePoints a ++ codePoints b.
Proof.
  assert (∀ n a, (length a ≤ n)%nat → endsInHighSurrogate a = false →
            codePoints (a ++ b) = codePoints a ++ codePoints b) as Hn.
  { clear a. induction n as [|n IH]; intros [|u [|v r]] Hlen Hend;
      simpl in Hlen; try done; try lia.
    - unfold endsInHighSurrogate in Hend. simpl in Hend.
      destruct b as [|w b']; simpl; [done|]. by rewrite Hend.
    - change ((u :: v :: r) ++ b) with (u :: v :: (r ++ b)).
      change (codePoints (u :: v :: r ++ b)) with
        (if isHighSurrogate u && isLowSurrogate v
         then [u; v] :: codePoints (r ++ b)
         else [u] :: codePoints ((v :: r) ++ b)).
      change (codePoints (u :: v :: r)) with
        (if isHighSurrogate u && isLowSurrogate v
         then [u; v] :: codePoints r
         else [u] :: codePoints (v :: r)).
      destruct (isHighSurrogate u && isLowSurrogate v) eqn:Hpair.
      + rewrite (IH r); [done | lia |].
        destruct r as [|w r]; [done|]. exact Hend.
      + rewrite (IH (v :: r)); [done | simpl; lia | exact Hend]. }
  by apply (Hn (length a)).
Qed.

Lemma codePoints_prefix lp w :
  endsInHighSurrogate lp = false →
  codePoints lp `prefix_of` codePoints w ↔ lp `prefix_of` w.
Proof.
  intros Hend. split.
  - intros [q Hq]. exists (concat q).
    by rewrite <- (codePoints_concat w), Hq, concat_app, codePoints_concat.
  - intros [s ->]. rewrite codePoints_app by done. by eexists.
Qed.

(** ** Map and Set *)

Section map_lemmas.
Context {V : Type}.
Implicit Types (m : Map V) (k : jsstring) (v : V).

Lemma Map_has_get k m : Map_has k m = true ↔ is_Some (Map_get k m).
Proof.
  unfold Map_has. destruct (Map_get k m); split; eauto; try done.
Qed.

Lemma Map_get_set_eq k v m : Map_get k (Map_set k v m) = Some v.
Proof.
  induction m as [|[k' v'] m IH]; simpl.
  - by rewrite decide_True.
  - destruct (decide (k' = k)) as [->|Hne]; simpl.
    + by rewrite decide_True.
    + by rewrite decide_False.
Qed.

Lemma Map_get_set_ne k k' v m :
  k ≠ k' → Map_get k' (Map_set k v m) = Map_get k' m.
Proof.
  intros Hne. induction m as [|[k0 v0] m IH]; simpl.
  - by rewrite decide_False.
  - destruct (decide (k0 = k)) as [->|Hne0]; simpl.
    + by rewrite !decide_False.
    + by rewrite IH.
Qed.

Lemma Map_get_elem_of k v m : Map_get k m = Some v → (k, v) ∈ m.
Proof.
  induction m as [|[k0 v0] m IH]; simpl; [done|].
  destruct (decide (k0 = k)) as [->|Hne].
  - intros [= ->]. apply list_elem_of_here.
  - intros Hget. apply list_elem_of_further. auto.
Qed.

Lemma Map_get_unique k v m :
  NoDup (map fst m) → (k, v) ∈ m → Map_get k m = Some v.
Proof.
  induction m as [|[k0 v0] m IH]; simpl; intros Hnd Hin.
  - by apply elem_of_nil in Hin.
  - apply NoDup_cons in Hnd as [Hnotin Hnd].
    apply elem_of_cons in Hin as [[= <- <-]|Hin].
    + by rewrite decide_True.
    + rewrite decide_False; [auto|].
      intros ->. apply Hnotin.
      as_fmap.
      apply list_elem_of_fmap. by exists (k, v).
Qed.

Lemma Map_set_keys k v m :
  map fst (Map_set k v m) =
    if Map_has k m then map fst m else map fst m ++ [k].
Proof.
  unfold Map_has. induction m as [|[k0 v0] m IH]; simpl; [done|].
  destruct (decide (k0 = k)) as [->|Hne]; simpl; [done|].
  rewrite IH. by destruct (Map_get k m).
Qed.

Lemma Map_has_keys k m : Map_has k m = true ↔ k ∈ map fst m.
Proof.
  unfold Map_has. induction m as [|[k0 v0] m IH]; simpl.
  - split; [done|]. intros Hin. by apply elem_of_nil in Hin.
  - destruct (decide (k0 = k)) as [->|Hne].
    + split; [|done]. intros _. apply list_elem_of_here.
    + rewrite IH. split.
      * apply list_elem_of_further.
      * intros Hin. apply elem_of_cons in Hin as [?|?]; [congruence|done].
Qed.

Lemma Map_set_NoDup k v m : NoDup (map fst m) → NoDup (map fst (Map_set k v m)).
Proof.
  intros Hnd. rewrite Map_set_keys.
  destruct (Map_has k m) eqn:Hhas; [done|].
  apply NoDup_app. split; [done|]. split; [|apply NoDup_singleton].
  intros x Hx Hk. apply list_elem_of_singleton in Hk as ->.
  apply Map_has_keys in Hx. congruence.
Qed.

Lemma Map_set_Forall (P : jsstring * V → Prop) k v m :
  Forall P m → P (k, v) → Forall P (Map_set k v m).
Proof.
  intros Hm Hkv. induction Hm as [|[k0 v0] m H0 Hm IH]; simpl.
  - by constructor.
  - destruct (decide (k0 = k)); constructor; auto.
Qed.

End map_lemmas.

Lemma Set_has_true x s : Set_has x s = true ↔ x ∈ s.
Proof. unfold Set_has. apply bool_decide_eq_true. Qed.

Lemma Set_has_false x s : Set_has x s = false ↔ x ∉ s.
Proof. unfold Set_has. apply bool_decide_eq_false. Qed.

(** ** Paths of the trie *)

Lemma entry_nil node :
  entry node [] = if isEndOfWord node then Some (definition node) else None.
Proof. done. Qed.

Lemma entry_cons node ch rest :
  entry node (ch :: rest) =
    match Map_get ch (children node) with
    | Some next => entry next rest
    | None => None
    end.
Proof. unfold entry. simpl. by destruct (Map_get ch (children node)). Qed.

Lemma entry_newTrieNode path : entry newTrieNode path = None.
Proof. by destruct path. Qed.

Lemma nodeAt_app p q node :
  nodeAt (p ++ q) node =
    match nodeAt p node with Some sub => nodeAt q sub | None => None end.
Proof.
  revert node. induction p as [|ch p IH]; intros node; simpl; [done|].
  by destruct (Map_get ch (children node)).
Qed.

Lemma entry_app p q node sub :
  nodeAt p node = Some sub → entry node (p ++ q) = entry sub q.
Proof. intros Hsub. unfold entry. by rewrite nodeAt_app, Hsub. Qed.

Lemma entry_nodeAt node path : is_Some (entry node path) → is_Some (nodeAt path node).
Proof. unfold entry. destruct (nodeAt path node); [eauto|]. by intros [? ?]. Qed.

Lemma descend_nodeAt chars node : descend chars node = Normal (nodeAt chars node).
Proof.
  revert node. induction chars as [|ch rest IH]; intros node; simpl; [done|].
  unfold Map_has. destruct (Map_get ch (children node)); simpl; auto.
Qed.

(** ** Writing in the trie *)

Lemma uniqueKeys_newTrieNode : uniqueKeys newTrieNode.
Proof. constructor; simpl; [apply NoDup_nil_2 | constructor]. Qed.

Lemma uniqueKeys_inv node :
  uniqueKeys node →
  NoDup (map fst (children node)) ∧
  Forall (λ kv, uniqueKeys (snd kv)) (children node).
Proof. by intros [kids e def Hnd Hall]. Qed.

Lemma uniqueKeys_child node ch next :
  uniqueKeys node → Map_get ch (children node) = Some next → uniqueKeys next.
Proof.
  intros [_ Hall]%uniqueKeys_inv Hget%Map_get_elem_of.
  by apply (proj1 (Forall_forall _ _) Hall (ch, next)).
Qed.

Lemma uniqueKeys_set ch next kids e def :
  NoDup (map fst kids) → Forall (λ kv, uniqueKeys (snd kv)) kids →
  uniqueKeys next →
  uniqueKeys (mkTrieNode (Map_set ch next kids) e def).
Proof.
  intros Hnd Hall Hnext. constructor.
  - by apply Map_set_NoDup.
  - by apply Map_set_Forall.
Qed.

(** After the walk of the path, the path is a word with the definition
    given; nothing else changes. *)
Lemma insertPath_spec chars def :
  ∀ node, ∃ node',
    insertPath chars def node = Normal node' ∧
    (∀ p, entry node' p = if decide (p = chars) then Some def else entry node p) ∧
    (uniqueKeys node → uniqueKeys node').
Proof.
  induction chars as [|ch rest IH]; intros [kids e d0].
  - eexists. split; [done|]. split.
    + intros [|c q]; [done|]. by rewrite decide_False, !entry_cons.
    + intros [Hnd Hall]%uniqueKeys_inv. by constructor.
  - simpl.
    set (kids' := if negb (Map_has ch kids) then Map_set ch newTrieNode kids else kids).
    assert (∃ next, Map_get ch kids' = Some next ∧
              (∀ q, entry next q =
                 match Map_get ch kids with Some n => entry n q | None => None end) ∧
              (∀ c, c ≠ ch → Map_get c kids' = Map_get c kids) ∧
              (NoDup (map fst kids) → NoDup (map fst kids')) ∧
              (Forall (λ kv, uniqueKeys (snd kv)) kids →
               Forall (λ kv, uniqueKeys (snd kv)) kids' ∧ uniqueKeys next))
      as (next & Hnext & Hentry & Hother & Hnd' & Hall').
    { subst kids'. unfold Map_has. destruct (Map_get ch kids) as [n|] eqn:Hget; simpl.
      - exists n. split; [done|]. split; [done|]. split; [done|]. split; [done|].
        intros Hall. split; [done|].
        apply Map_get_elem_of in Hget.
        by apply (proj1 (Forall_forall _ _) Hall (ch, n)).
      - exists newTrieNode. split; [apply Map_get_set_eq|].
        split; [intros q; apply entry_newTrieNode|].
        split; [intros c Hc; by apply Map_get_set_ne|].
        split; [apply Map_set_NoDup|].
        intros Hall. split; [|apply uniqueKeys_newTrieNode].
        apply Map_set_Forall; [done|apply uniqueKeys_newTrieNode]. }
    rewrite Hnext. destruct (IH next) as (next' & -> & Hspec & Hkeys). simpl.
    eexists. split; [done|]. split.
    + intros [|c q]; [by rewrite decide_False|].
      rewrite !entry_cons. simpl. destruct (decide (c = ch)) as [->|Hc].
      * rewrite Map_get_set_eq, Hspec, Hentry.
        destruct (decide (q = rest)) as [->|Hq].
        -- by rewrite decide_True.
        -- rewrite decide_False by congruence. done.
      * rewrite Map_get_set_ne by done. rewrite Hother by done.
        by rewrite decide_False by congruence.
    + intros [Hnd Hall]%uniqueKeys_inv. simpl in *.
      destruct (Hall' Hall) as [? ?]. apply uniqueKeys_set; auto.
Qed.

(** On the path of a stored word the update branch does not throw, and
    writes its definition. *)
Lemma updateDefinition_spec chars def :
  ∀ node old, entry node chars = Some old →
    ∃ node',
      updateDefinition chars def node = Normal node' ∧
      (∀ p, entry node' p =
            if decide (p = chars) then Some (or_else def old) else entry node p) ∧
      (uniqueKeys node → uniqueKeys node').
Proof.
  induction chars as [|ch rest IH]; intros [kids e d0] old Hold.
  - rewrite entry_nil in Hold. simpl in Hold. destruct e; [|done].
    injection Hold as ->.
    eexists. split; [done|]. split.
    + intros [|c q]; [done|]. by rewrite decide_False, !entry_cons.
    + intros [Hnd Hall]%uniqueKeys_inv. by constructor.
  - rewrite entry_cons in Hold. simpl in *.
    destruct (Map_get ch kids) as [next|] eqn:Hget; [|done].
    destruct (IH next old Hold) as (next' & -> & Hspec & Hkeys). simpl.
    eexists. split; [done|]. split.
    + intros [|c q]; [by rewrite decide_False|].
      rewrite !entry_cons. simpl. destruct (decide (c = ch)) as [->|Hc].
      * rewrite Map_get_set_eq, Hspec, Hget.
        destruct (decide (q = rest)) as [->|Hq].
        -- by rewrite decide_True.
        -- by rewrite decide_False by congruence.
      * rewrite Map_get_set_ne by done.
        by rewrite decide_False by congruence.
    + intros Huk. pose proof (uniqueKeys_child _ _ _ Huk Hget) as Hn.
      apply uniqueKeys_inv in Huk as [Hnd Hall]. simpl in *.
      apply uniqueKeys_set; auto.
Qed.

(** ** The dictionary invariant *)

Section dictionary.
Context `{Builtins}.

Lemma consistent_new : consistent newWordDictionary.
Proof.
  split; simpl.
  - done.
  - apply NoDup_nil_2.
  - intros w Hw. by apply elem_of_nil in Hw.
  - intros path. rewrite entry_newTrieNode. split.
    + by intros [? ?].
    + intros (w & Hw & _). by apply elem_of_nil in Hw.
  - apply uniqueKeys_newTrieNode.
Qed.

Lemma consistent_entry d w :
  consistent d → (is_Some (entry (root d) (codePoints w)) ↔ w ∈ wordList d).
Proof.
  intros Hd. rewrite (consistent_trie d Hd). split.
  - by intros (w' & Hw' & <-%codePoints_inj).
  - intros Hw. by exists w.
Qed.

(** One call of [insertWord] on a consistent dictionary: it returns, the
    dictionary stays consistent, the word goes last in [wordList] unless it
    is there, and the trie changes at the path of the word only. *)
Lemma insertWord_step d w def :
  consistent d →
  ∃ d', insertWord d w def = Normal d' ∧ consistent d' ∧
    wordList d' =
      (if decide (toLowerCase w ∈ wordList d) then wordList d
       else wordList d ++ [toLowerCase w]) ∧
    (∀ p, entry (root d') p =
          if decide (p = codePoints (toLowerCase w)) then
            Some (match entry (root d) p with
                  | None => def
                  | Some old => or_else def old
                  end)
          else entry (root d) p) ∧
    (toLowerCase w ∈ wordList d → def = [] → d' = d).
Proof.
  intros Hd. pose proof (consistent_entry d (toLowerCase w) Hd) as Hin.
  unfold insertWord. rewrite (consistent_set d Hd).
  destruct (Set_has (toLowerCase w) (wordList d)) eqn:Hhas.
  - apply Set_has_true in Hhas. rewrite decide_True by done.
    destruct (proj2 Hin Hhas) as [old Hold].
    destruct (truthy def) eqn:Hdef.
    + destruct (updateDefinition_spec (codePoints (toLowerCase w)) def (root d) old Hold)
        as (root' & -> & Hspec & Hkeys). simpl.
      eexists. split; [done|]. split; [|split; [done|split]].
      * destruct Hd as [Hset Honce Hlower Htrie Huk]. split; simpl; auto.
        intros path. rewrite <- Htrie, Hspec.
        destruct (decide (path = _)) as [->|]; [|done].
        rewrite Hold. split; eauto.
      * intros p. simpl. rewrite Hspec.
        destruct (decide (p = _)) as [->|]; [|done]. by rewrite Hold.
      * intros _ ->. done.
    + exists d. split; [done|]. split; [done|]. split; [done|]. split; [|done].
      intros p. destruct (decide (p = _)) as [->|]; [|done].
      rewrite Hold. unfold or_else. by rewrite Hdef.
  - apply Set_has_false in Hhas. rewrite decide_False by done.
    assert (entry (root d) (codePoints (toLowerCase w)) = None) as Hnone.
    { destruct (entry _ _) eqn:He; [|done]. destruct Hhas. apply Hin. eauto. }
    destruct (insertPath_spec (codePoints (toLowerCase w)) def (root d))
      as (root' & -> & Hspec & Hkeys). simpl.
    eexists. split; [done|]. split; [|split; [done|split]].
    + destruct Hd as [Hset Honce Hlower Htrie Huk]. split; simpl.
      * unfold Set_add. by rewrite (proj2 (Set_has_false _ _) Hhas).
      * apply NoDup_app. split; [done|]. split; [|apply NoDup_singleton].
        intros x Hx Hx'. apply list_elem_of_singleton in Hx' as ->. done.
      * intros x [Hx|Hx]%elem_of_app; [auto|].
        apply list_elem_of_singleton in Hx as ->. eauto.
      * intros path. rewrite Hspec.
        destruct (decide (path = _)) as [->|Hne].
        -- split; [|eauto]. intros _. exists (toLowerCase w). split; [|done].
           apply elem_of_app. right. apply list_elem_of_here.
        -- rewrite Htrie. split.
           ++ intros (x & Hx & Hp). exists x. split; [|done].
              apply elem_of_app. by left.
           ++ intros (x & [Hx|Hx]%elem_of_app & Hp); [eauto|].
              apply list_elem_of_singleton in Hx as ->. done.
      * auto.
    + intros p. simpl. rewrite Hspec.
      destruct (decide (p = _)) as [->|]; [|done]. by rewrite Hnone.
    + intros Hw. done.
Qed.

Lemma expectedDefinition_step inserts w x def current :
  expectedDefinition ((x, def) :: inserts) w current =
    expectedDefinition inserts w
      (if decide (toLowerCase x = w) then
         Some (match current with
               | None => def
               | Some old => or_else def old
               end)
       else current).
Proof. simpl. by destruct (decide (toLowerCase x = w)). Qed.

(** A sequence of calls from a consistent dictionary. *)
Lemma insertAll_spec inserts :
  ∀ d, consistent d →
    ∃ d', insertAll inserts d = Normal d' ∧ consistent d' ∧
      wordList d' = wordList d ++ firstInsertions inserts (wordList d) ∧
      (∀ w, entry (root d') (codePoints w) =
            expectedDefinition inserts w (entry (root d) (codePoints w))).
Proof.
  induction inserts as [|[x def] rest IH]; intros d Hd.
  - exists d. split; [done|]. split; [done|]. split; [|done].
    simpl. by rewrite app_nil_r.
  - destruct (insertWord_step d x def Hd) as (d1 & Hd1 & Hc1 & Hl1 & He1 & _).
    destruct (IH d1 Hc1) as (d' & Hd' & Hc' & Hl' & He').
    exists d'. split; [|split; [done|split]].
    + simpl. by rewrite Hd1.
    + rewrite Hl', Hl1. simpl.
      destruct (decide (toLowerCase x ∈ wordList d)); [done|].
      by rewrite <- app_assoc.
    + intros w. rewrite He', He1, expectedDefinition_step.
      f_equal. destruct (decide (toLowerCase x = w)) as [->|Hne].
      * by rewrite decide_True.
      * rewrite decide_False; [done|]. intros ?%codePoints_inj. congruence.
Qed.

(** Every dictionary made by inserts alone is consistent. *)
Lemma insertAll_new inserts :
  ∃ d, insertAll inserts newWordDictionary = Normal d ∧ consistent d ∧
    wordList d = firstInsertions inserts [] ∧
    (∀ w, entry (root d) (codePoints w) = expectedDefinition inserts w None).
Proof.
  destruct (insertAll_spec inserts newWordDictionary consistent_new)
    as (d & Hd & Hc & Hl & He).
  exists d. split; [done|]. split; [done|]. split; [exact Hl|].
  intros w. rewrite He. simpl. by rewrite entry_newTrieNode.
Qed.

Lemma searchWord_entry d w :
  searchWord d w =
    Normal (match nodeAt (codePoints (toLowerCase w)) (root d) with
            | Some n => Lookup.mk (isEndOfWord n) (definition n)
            | None => Lookup.mk false []
            end).
Proof.
  unfold searchWord. rewrite descend_nodeAt. simpl.
  by destruct (nodeAt _ _).
Qed.

Lemma searchWord_found d w def :
  entry (root d) (codePoints (toLowerCase w)) = Some def →
  searchWord d w = Normal (Lookup.mk true def).
Proof.
  rewrite searchWord_entry. unfold entry.
  destruct (nodeAt _ _) as [n|]; [|done].
  destruct (isEndOfWord n); [|done]. by intros [= ->].
Qed.

End dictionary.

(** ** The depth-first walk *)

Lemma terminalPaths_unfold node :
  terminalPaths node =
    (if isEndOfWord node then [[]] else []) ++
    flat_map (λ e, map (cons (fst e)) (terminalPaths (snd e))) (children node).
Proof. by destruct node. Qed.

Lemma terminals_unfold node prefix :
  terminals node prefix =
    (if isEndOfWord node then [prefix] else []) ++
    flat_map (λ e, terminals (snd e) (prefix ++ fst e)) (children node).
Proof.
  unfold terminals. rewrite terminalPaths_unfold, map_app. f_equal.
  - destruct (isEndOfWord node); simpl; [|done]. by rewrite app_nil_r.
  - induction (children node) as [|[k c] kids IH]; simpl; [done|].
    rewrite map_app, IH, map_map. f_equal.
    apply map_ext. intros q. simpl. by rewrite app_assoc.
Qed.

Lemma dfs_unfold node prefix suggestions cap :
  dfs node prefix suggestions cap =
    if Z.of_nat (length suggestions) >=? cap then suggestions
    else
      fold_left (λ acc e, dfs (snd e) (prefix ++ fst e) acc cap)
        (children node)
        (if isEndOfWord node then suggestions ++ [prefix] else suggestions).
Proof. by destruct node. Qed.

Lemma budget_app cap l k : budget cap (l ++ k) = (budget cap l - length k)%nat.
Proof. unfold budget. rewrite length_app. lia. Qed.

Lemma take_budget_app cap acc (t1 t2 : list jsstring) :
  (acc ++ take (budget cap acc) t1) ++
    take (budget cap (acc ++ take (budget cap acc) t1)) t2 =
  acc ++ take (budget cap acc) (t1 ++ t2).
Proof.
  rewrite budget_app, length_take, take_app, <- app_assoc. do 2 f_equal.
  destruct (decide (budget cap acc ≤ length t1)%nat).
  - replace (budget cap acc - _)%nat with 0%nat by lia.
    by replace (budget cap acc - _)%nat with 0%nat by lia.
  - f_equal. lia.
Qed.

(** The walk appends the terminal words below the node, in order, until the
    cap is reached. *)
Lemma dfs_terminals cap node :
  ∀ prefix suggestions,
    dfs node prefix suggestions cap =
      suggestions ++ take (budget cap suggestions) (terminals node prefix).
Proof.
  induction node as [kids e def IH] using TrieNode_induction.
  intros prefix suggestions. rewrite dfs_unfold, terminals_unfold. simpl.
  destruct (Z.of_nat (length suggestions) >=? cap) eqn:Hcap.
  { replace (budget cap suggestions) with 0%nat by (unfold budget; lia).
    by rewrite take_0, app_nil_r. }
  assert (∀ acc,
    fold_left (λ acc e, dfs (snd e) (prefix ++ fst e) acc cap) kids acc =
    acc ++ take (budget cap acc)
             (flat_map (λ e, terminals (snd e) (prefix ++ fst e)) kids))
    as Hfold.
  { induction IH as [|[k c] kids Hc _ IHkids]; intros acc; simpl.
    - by rewrite take_nil, app_nil_r.
    - rewrite IHkids, Hc. simpl. apply take_budget_app. }
  rewrite Hfold. destruct e; [|done].
  rewrite budget_app, <- app_assoc. simpl. f_equal.
  assert (budget cap suggestions ≠ 0)%nat as Hb by (unfold budget; lia).
  destruct (budget cap suggestions) as [|b]; [done|].
  simpl. by rewrite Nat.sub_0_r.
Qed.

Lemma elem_of_flat_map {A B} (f : A → list B) (l : list A) (y : B) :
  y ∈ flat_map f l ↔ ∃ x, x ∈ l ∧ y ∈ f x.
Proof.
  rewrite list_elem_of_In, in_flat_map. split.
  - intros (x & Hx & Hy). exists x. by rewrite !list_elem_of_In.
  - intros (x & Hx & Hy). exists x. by rewrite <- !list_elem_of_In.
Qed.

Lemma elem_of_terminalPaths node :
  uniqueKeys node →
  ∀ q, q ∈ terminalPaths node ↔ is_Some (entry node q).
Proof.
  induction node as [kids e def IH] using TrieNode_induction.
  intros [Hnd Hall]%uniqueKeys_inv q. simpl in Hnd, Hall.
  rewrite terminalPaths_unfold, elem_of_app, elem_of_flat_map. simpl.
  destruct q as [|k q].
  - rewrite entry_nil. simpl. split.
    + intros [Hq|([k c] & _ & Hq)].
      * destruct e; [eauto|]. by apply elem_of_nil in Hq.
      * as_fmap in Hq.
        by apply list_elem_of_fmap in Hq as (? & ? & _).
    + intros He. left. destruct e; [apply list_elem_of_here|].
      by destruct He.
  - rewrite entry_cons. simpl. split.
    + intros [Hq|([k' c] & Hin & Hq)].
      * destruct e; [|by apply elem_of_nil in Hq].
        by apply list_elem_of_singleton in Hq.
      * as_fmap in Hq.
        apply list_elem_of_fmap in Hq as (q' & [= -> ->] & Hq'). simpl in *.
        rewrite (Map_get_unique _ _ _ Hnd Hin).
        apply (proj1 (Forall_forall _ _) IH (k', c) Hin); [|done].
        by apply (proj1 (Forall_forall _ _) Hall (k', c) Hin).
    + destruct (Map_get k kids) as [c|] eqn:Hget; [|by intros [? ?]].
      intros Hq. right. exists (k, c).
      pose proof (Map_get_elem_of _ _ _ Hget) as Hin. split; [done|].
      as_fmap.
      apply list_elem_of_fmap. exists q. split; [done|].
      apply (proj1 (Forall_forall _ _) IH (k, c) Hin); [|done].
      by apply (proj1 (Forall_forall _ _) Hall (k, c) Hin).
Qed.

Lemma NoDup_terminalPaths node : uniqueKeys node → NoDup (terminalPaths node).
Proof.
  induction node as [kids e def IH] using TrieNode_induction.
  intros [Hnd Hall]%uniqueKeys_inv. simpl in Hnd, Hall.
  rewrite terminalPaths_unfold. simpl. apply NoDup_app. split; [|split].
  - destruct e; [apply NoDup_singleton | apply NoDup_nil_2].
  - intros q Hq. destruct e; [|by apply elem_of_nil in Hq].
    apply list_elem_of_singleton in Hq as ->.
    intros ([k c] & _ & Hq)%elem_of_flat_map.
    as_fmap in Hq.
    by apply list_elem_of_fmap in Hq as (? & ? & _).
  - clear e def. induction kids as [|[k c] kids IHkids]; simpl.
    { apply NoDup_nil_2. }
    apply Forall_cons_1 in IH as [IHc IH].
    apply Forall_cons_1 in Hall as [Hc Hall].
    apply NoDup_cons in Hnd as [Hk Hnd]. simpl in *.
    apply NoDup_app. split; [|split; [|auto]].
    + as_fmap. apply NoDup_fmap_2; [|auto].
      intros ?? [=]. done.
    + intros q Hq ([k' c'] & Hin & Hq')%elem_of_flat_map.
      as_fmap in Hq; as_fmap in Hq'.
      apply list_elem_of_fmap in Hq as (q1 & -> & _).
      apply list_elem_of_fmap in Hq' as (q2 & [= <- _] & _). simpl in *.
      apply Hk. as_fmap.
      apply list_elem_of_fmap. by exists (k, c').
Qed.

Lemma uniqueKeys_nodeAt path :
  ∀ node sub, uniqueKeys node → nodeAt path node = Some sub → uniqueKeys sub.
Proof.
  induction path as [|ch rest IH]; intros node sub Huk; simpl.
  - by intros [= <-].
  - destruct (Map_get ch (children node)) as [next|] eqn:Hget; [|done].
    apply IH. by eapply uniqueKeys_child.
Qed.

Lemma Set_from_loop_NoDup l : ∀ seen, NoDup (seen ++ l) → Set_from_loop l seen = seen ++ l.
Proof.
  induction l as [|x l IH]; intros seen Hnd; simpl.
  - by rewrite app_nil_r.
  - assert (x ∉ seen) as Hx.
    { apply NoDup_app in Hnd as (_ & Hd & _). intros Hin.
      apply (Hd x Hin). apply list_elem_of_here. }
    unfold Set_add. rewrite (proj2 (Set_has_false _ _) Hx).
    rewrite IH; rewrite <- app_assoc; done.
Qed.

Lemma Array_from_Set_NoDup l : NoDup l → Array_from_Set l = l.
Proof. intros Hnd. by apply (Set_from_loop_NoDup l []). Qed.

(** ** Suggestions *)

Section suggestions.
Context `{Builtins}.

Lemma concat_path_word pp q w :
  codePoints w = codePoints pp ++ q → w = pp ++ concat q.
Proof.
  intros Hw. rewrite <- (codePoints_concat w), Hw, concat_app.
  by rewrite codePoints_concat.
Qed.

Lemma elem_of_subtreeWords d lp w :
  consistent d →
  w ∈ subtreeWords d lp ↔
    w ∈ wordList d ∧ codePoints lp `prefix_of` codePoints w.
Proof.
  intros Hd. unfold subtreeWords.
  destruct (nodeAt (codePoints lp) (root d)) as [sub|] eqn:Hsub.
  - pose proof (uniqueKeys_nodeAt _ _ _ (consistent_keys d Hd) Hsub) as Huk.
    unfold terminals. as_fmap.
    rewrite list_elem_of_fmap. split.
    + intros (q & -> & Hq). apply (elem_of_terminalPaths sub Huk) in Hq.
      rewrite <- (entry_app _ _ _ _ Hsub) in Hq.
      apply (consistent_trie d Hd) in Hq as (w' & Hw' & Hpath).
      rewrite <- (concat_path_word _ _ _ Hpath).
      split; [done|]. rewrite Hpath. by exists q.
    + intros [Hw [q Hq]]. exists q. split; [by apply concat_path_word|].
      apply (elem_of_terminalPaths sub Huk).
      rewrite <- (entry_app _ _ _ _ Hsub), <- Hq.
      by apply consistent_entry.
  - split; [by intros ?%elem_of_nil|].
    intros [Hw [q Hq]]. apply (consistent_entry d w Hd) in Hw.
    apply entry_nodeAt in Hw. rewrite Hq, nodeAt_app, Hsub in Hw.
    by destruct Hw.
Qed.

Lemma NoDup_subtreeWords d lp : consistent d → NoDup (subtreeWords d lp).
Proof.
  intros Hd. unfold subtreeWords.
  destruct (nodeAt (codePoints lp) (root d)) as [sub|] eqn:Hsub;
    [|apply NoDup_nil_2].
  pose proof (uniqueKeys_nodeAt _ _ _ (consistent_keys d Hd) Hsub) as Huk.
  unfold terminals. as_fmap.
  apply NoDup_fmap_2_strong; [|by apply NoDup_terminalPaths].
  assert (∀ q, q ∈ terminalPaths sub →
            codePoints (lp ++ concat q) = codePoints lp ++ q) as Hword.
  { intros q Hq. apply (elem_of_terminalPaths sub Huk) in Hq.
    rewrite <- (entry_app _ _ _ _ Hsub) in Hq.
    apply (consistent_trie d Hd) in Hq as (w' & Hw' & Hpath).
    by rewrite <- (concat_path_word _ _ _ Hpath). }
  intros q1 q2 Hq1 Hq2 Heq.
  apply Hword in Hq1, Hq2. rewrite Heq, Hq2 in Hq1.
  by apply app_inv_head in Hq1.
Qed.

Lemma subtreeWords_completions d lp :
  consistent d → subtreeWords d lp ≡ₚ completions d lp.
Proof.
  intros Hd. apply NoDup_Permutation.
  - by apply NoDup_subtreeWords.
  - apply NoDup_filter, (consistent_once d Hd).
  - intros w. rewrite (elem_of_subtreeWords d lp w Hd).
    unfold completions. rewrite list_elem_of_filter. tauto.
Qed.

Lemma Array_slice0_take {A} (l : list A) n :
  0 ≤ n → Array_slice0 l n = take (Z.to_nat n) l.
Proof. intros Hn. unfold Array_slice0. by rewrite (proj2 (Z.ltb_ge n 0)). Qed.

(** What [getAutoSuggestions] returns on a consistent dictionary: the first
    [maxSuggestions] words of the walk below the prefix. *)
Lemma getAutoSuggestions_spec d prefix maxSuggestions :
  consistent d → 0 ≤ maxSuggestions →
  getAutoSuggestions d prefix maxSuggestions =
    Normal (take (Z.to_nat maxSuggestions) (subtreeWords d (toLowerCase prefix))).
Proof.
  intros Hd Hmax. pose proof (NoDup_subtreeWords d (toLowerCase prefix) Hd) as Hnd.
  unfold getAutoSuggestions, subtreeWords in *. rewrite descend_nodeAt. simpl.
  destruct (nodeAt _ _) as [sub|]; [|by rewrite take_nil].
  rewrite dfs_terminals. simpl.
  rewrite Array_from_Set_NoDup
    by (eapply sublist_NoDup; [done | apply sublist_take]).
  rewrite Array_slice0_take, take_take by done.
  do 2 f_equal. unfold budget. simpl. lia.
Qed.

End suggestions.

(** ** Sorting *)

Section sorting.
Context {A : Type} (cmp : A → A → Z).

Lemma insertPivot_Permutation pivot sorted :
  insertPivot cmp pivot sorted ≡ₚ pivot :: sorted.
Proof.
  induction sorted as [|y rest IH]; simpl; [done|].
  repeat case_decide; try done.
  rewrite IH. apply Permutation_swap.
Qed.

Lemma Array_sort_Permutation l : Array_sort cmp l ≡ₚ l.
Proof.
  unfold Array_sort.
  assert (∀ acc, fold_left (λ sorted pivot, insertPivot cmp pivot sorted) l acc
                   ≡ₚ acc ++ l) as Hgen.
  { induction l as [|x l IH]; intros acc; simpl.
    - by rewrite app_nil_r.
    - rewrite IH, insertPivot_Permutation.
      by rewrite (Permutation_middle acc l x). }
  apply (Hgen []).
Qed.

Lemma insertPivot_sorted pivot sorted :
  Total (notAfter cmp) → Transitive (notAfter cmp) →
  StronglySorted (notAfter cmp) sorted →
  StronglySorted (notAfter cmp) (insertPivot cmp pivot sorted).
Proof.
  intros Htot Htrans. induction 1 as [|y rest Hrest IH Hall]; simpl.
  - repeat constructor.
  - assert (notAfter cmp pivot y →
            StronglySorted (notAfter cmp) (pivot :: y :: rest)) as Hfront.
    { intros Hpy. constructor; [by constructor|].
      constructor; [done|].
      eapply Forall_impl; [exact Hall|]. intros z Hz. by transitivity y. }
    repeat case_decide.
    + apply Hfront. unfold notAfter. lia.
    + constructor; [done|].
      rewrite insertPivot_Permutation. by constructor.
    + apply Hfront. by destruct (Htot pivot y).
Qed.

Lemma Array_sort_sorted l :
  Total (notAfter cmp) → Transitive (notAfter cmp) →
  StronglySorted (notAfter cmp) (Array_sort cmp l).
Proof.
  intros Htot Htrans. unfold Array_sort.
  assert (∀ acc, StronglySorted (notAfter cmp) acc →
            StronglySorted (notAfter cmp)
              (fold_left (λ sorted pivot, insertPivot cmp pivot sorted) l acc))
    as Hgen.
  { induction l as [|x l IH]; intros acc Hacc; simpl; [done|].
    by apply IH, insertPivot_sorted. }
  apply Hgen. constructor.
Qed.

(** The sort is stable: a pivot goes behind a sorted part none of whose
    elements it precedes, and so a list that is in order already, ties
    included, is left as it is. *)
Lemma insertPivot_last pivot sorted :
  Forall (λ y, ¬ cmp pivot y < 0 ∧ cmp y pivot ≤ 0) sorted →
  insertPivot cmp pivot sorted = sorted ++ [pivot].
Proof.
  induction 1 as [|y rest [Hpy Hyp] _ IH]; simpl; [done|].
  rewrite decide_False, decide_True by done. by rewrite IH.
Qed.

Lemma Array_sort_stable l :
  (∀ x y, cmp x y ≤ 0 → ¬ cmp y x < 0) →
  StronglySorted (notAfter cmp) l →
  Array_sort cmp l = l.
Proof.
  intros Hanti Hl. unfold Array_sort.
  assert (∀ acc, StronglySorted (notAfter cmp) (acc ++ l) →
            fold_left (λ sorted pivot, insertPivot cmp pivot sorted) l acc
              = acc ++ l) as Hgen.
  { clear Hl. induction l as [|x l IH]; intros acc Hacc; simpl.
    - by rewrite app_nil_r.
    - rewrite insertPivot_last.
      + rewrite IH; [by rewrite <- app_assoc|]. by rewrite <- app_assoc.
      + apply Forall_forall. intros y Hy.
        assert (notAfter cmp y x) as Hyx.
        { clear IH. induction acc as [|z acc IHacc]; [by apply elem_of_nil in Hy|].
          simpl in Hacc. apply StronglySorted_inv in Hacc as [Hacc Hz].
          apply elem_of_cons in Hy as [->|Hy]; [|by apply IHacc].
          rewrite Forall_forall in Hz. apply Hz.
          apply elem_of_app. right. by left. }
        split; [by apply Hanti|done]. }
  apply (Hgen []). done.
Qed.

End sorting.

(** ** Corrections *)

Section corrections.
Context `{Builtins}.

Lemma candidateOf_Some lw maxDistance w c :
  candidateOf lw maxDistance w = Some c →
  Candidate.word c = w ∧
  Candidate.distance c = lev (reverse lw) (reverse w) ∧
  0 < Candidate.distance c ≤ maxDistance.
Proof.
  unfold candidateOf.
  destruct (_ >? 0) eqn:Hpos; [|done].
  destruct (_ <=? maxDistance) eqn:Hle; [|done].
  intros [= <-]. simpl. split; [done|]. split; [done|]. lia.
Qed.

Lemma scanCandidates_spec lw maxDistance words :
  ∀ candidates,
    scanCandidates lw maxDistance words candidates =
      Normal (candidates ++ omap (candidateOf lw maxDistance) words).
Proof.
  induction words as [|w words IH]; intros candidates; simpl.
  - by rewrite app_nil_r.
  - rewrite editDistance_lev. simpl. rewrite IH. unfold candidateOf.
    destruct ((_ >? 0) && _); simpl; [|done]. by rewrite <- app_assoc.
Qed.

Lemma NoDup_candidates lw maxDistance words :
  NoDup words →
  NoDup (Candidate.word <$> omap (candidateOf lw maxDistance) words).
Proof.
  induction 1 as [|w words Hw Hnd IH]; simpl; [apply NoDup_nil_2|].
  destruct (candidateOf lw maxDistance w) as [c|] eqn:Hc; [|done].
  apply candidateOf_Some in Hc as (Hword & _). csimpl. rewrite Hword.
  apply NoDup_cons. split; [|done].
  intros (c' & -> & (w' & Hw' & Hc')%list_elem_of_omap)%list_elem_of_fmap.
  apply candidateOf_Some in Hc' as (<- & _). done.
Qed.

Lemma length_candidates lw maxDistance words :
  (length (omap (candidateOf lw maxDistance) words) ≤ length words)%nat.
Proof.
  induction words as [|w words IH]; csimpl; [done|].
  destruct (candidateOf lw maxDistance w); simpl; lia.
Qed.

Lemma candidateOf_empty lw maxDistance :
  0 < Z.of_nat (length lw) ≤ maxDistance →
  candidateOf lw maxDistance [] = Some (Candidate.mk [] (Z.of_nat (length lw))).
Proof.
  intros Hlen. unfold candidateOf. simpl. rewrite lev_nil_r, length_reverse.
  rewrite (proj2 (Z.gtb_gt _ _)) by lia.
  by rewrite (proj2 (Z.leb_le _ _)) by lia.
Qed.

(** With distinct words the loop keeps the first candidates up to the
    number asked. *)
Lemma uniqueLoop_take maxSuggestions candidates :
  ∀ seen unique,
    NoDup (seen ++ (Candidate.word <$> candidates)) →
    Z.of_nat (length unique) < maxSuggestions →
    uniqueLoop candidates seen unique maxSuggestions =
      unique ++ take (Z.to_nat maxSuggestions - length unique) candidates.
Proof.
  induction candidates as [|c rest IH]; intros seen unique Hnd Hlen; simpl.
  - by rewrite take_nil, app_nil_r.
  - csimpl in Hnd.
    assert (Candidate.word c ∉ seen) as Hc.
    { apply NoDup_app in Hnd as (_ & Hd & _). intros Hin.
      apply (Hd _ Hin). apply list_elem_of_here. }
    rewrite (proj2 (Set_has_false _ _) Hc). simpl.
    rewrite length_app. simpl.
    destruct (Z.to_nat maxSuggestions - length unique)%nat as [|k] eqn:Hk; [lia|].
    simpl. destruct (_ >=? maxSuggestions) eqn:Hfull;
      rewrite Z.geb_leb in Hfull;
      [apply Z.leb_le in Hfull | apply Z.leb_gt in Hfull].
    + replace k with 0%nat by lia. by rewrite take_0.
    + rewrite IH.
      * rewrite <- app_assoc, length_app. simpl. do 3 f_equal. lia.
      * unfold Set_add. rewrite (proj2 (Set_has_false _ _) Hc).
        by rewrite <- app_assoc.
      * rewrite length_app. simpl. lia.
Qed.

Lemma byDistanceThenWord_notAfter a b :
  notAfter byDistanceThenWord a b ↔
    Candidate.distance a < Candidate.distance b ∨
    (Candidate.distance a = Candidate.distance b ∧
     localeCompare (Candidate.word a) (Candidate.word b) ≤ 0).
Proof.
  unfold notAfter, byDistanceThenWord.
  destruct (_ =? 0) eqn:Hd; lia.
Qed.

Lemma byDistanceThenWord_total :
  compare_consistent → Total (notAfter byDistanceThenWord).
Proof.
  intros [Htotal _] a b. rewrite !byDistanceThenWord_notAfter.
  destruct (Htotal (Candidate.word a) (Candidate.word b)); lia.
Qed.

Lemma byDistanceThenWord_transitive :
  compare_consistent → Transitive (notAfter byDistanceThenWord).
Proof.
  intros [_ Htrans] a b c. rewrite !byDistanceThenWord_notAfter.
  intros [?|[? Hab]] [?|[? Hbc]]; try lia.
  right. split; [lia|]. by eapply Htrans.
Qed.

Lemma StronglySorted_take {A} (R : relation A) n l :
  StronglySorted R l → StronglySorted R (take n l).
Proof.
  intros Hl. rewrite <- (take_drop n l) in Hl.
  by apply StronglySorted_app_1_l in Hl.
Qed.

Lemma StronglySorted_fmap_on {A B} (f : A → B) (P : A → Prop)
    (R1 : relation A) (R2 : relation B) l :
  (∀ x y, P x → P y → R1 x y → R2 (f x) (f y)) →
  Forall P l → StronglySorted R1 l → StronglySorted R2 (f <$> l).
Proof.
  intros HR HP Hl. induction Hl as [|x l Hl IH Hx]; csimpl; [constructor|].
  apply Forall_cons_1 in HP as [Hpx HP].
  constructor; [auto|]. rewrite Forall_fmap.
  rewrite Forall_forall in *. intros y Hy. simpl. auto.
Qed.

(** What [getSpellingCorrections] returns when the stored words are
    distinct: the first [maxSuggestions] candidates of the sorted scan. *)
Lemma getSpellingCorrections_spec d word maxDistance maxSuggestions :
  NoDup (wordList d) → 0 < maxSuggestions →
  getSpellingCorrections d word maxDistance maxSuggestions =
    Normal (Candidate.word <$>
              take (Z.to_nat maxSuggestions)
                (Array_sort byDistanceThenWord
                   (omap (candidateOf (toLowerCase word) maxDistance)
                      (wordList d)))).
Proof.
  intros Hnd Hmax. unfold getSpellingCorrections.
  rewrite scanCandidates_spec. simpl.
  rewrite uniqueLoop_take; simpl.
  - by rewrite Nat.sub_0_r.
  - rewrite Array_sort_Permutation.
    by apply NoDup_candidates.
  - done.
Qed.

End corrections.

(** ** The reference definitions *)

Section reference_lemmas.
Context `{Builtins}.

Lemma expectedDefinition_Some inserts w :
  ∀ current, is_Some current → is_Some (expectedDefinition inserts w current).
Proof.
  induction inserts as [|[x def] rest IH]; intros current Hc; simpl; [done|].
  destruct (decide (toLowerCase x = w)); auto.
Qed.

Lemma expectedDefinition_inserted inserts x def :
  (x, def) ∈ inserts →
  ∀ current, is_Some (expectedDefinition inserts (toLowerCase x) current).
Proof.
  induction inserts as [|[x' def'] rest IH]; intros Hin current.
  - by apply elem_of_nil in Hin.
  - simpl. apply elem_of_cons in Hin as [[= <- <-]|Hin].
    + rewrite decide_True by done. by apply expectedDefinition_Some.
    + destruct (decide (toLowerCase x' = toLowerCase x)); auto.
Qed.

Lemma expectedDefinition_app ins1 ins2 w current :
  expectedDefinition (ins1 ++ ins2) w current =
    expectedDefinition ins2 w (expectedDefinition ins1 w current).
Proof.
  revert current. induction ins1 as [|[x def] rest IH]; intros current; simpl;
    [done|].
  destruct (decide (toLowerCase x = w)); auto.
Qed.

Lemma elem_of_firstInsertions inserts :
  ∀ seen w,
    w ∈ seen ++ firstInsertions inserts seen ↔
    w ∈ seen ∨ ∃ x def, (x, def) ∈ inserts ∧ w = toLowerCase x.
Proof.
  induction inserts as [|[x def] rest IH]; intros seen w; simpl.
  - rewrite app_nil_r. split; [auto|].
    intros [?|(? & ? & ?%elem_of_nil & _)]; done.
  - assert ((∃ x' def', (x', def') ∈ (x, def) :: rest ∧ w = toLowerCase x') ↔
            w = toLowerCase x ∨
            ∃ x' def', (x', def') ∈ rest ∧ w = toLowerCase x') as ->.
    { split.
      - intros (x' & def' & Hin & ->). apply elem_of_cons in Hin as [Heq|Hin].
        + injection Heq as -> ->. by left.
        + right. eauto.
      - intros [->|(x' & def' & Hin & ->)].
        + exists x, def. split; [apply list_elem_of_here|done].
        + exists x', def'. split; [by apply list_elem_of_further|done]. }
    destruct (decide (toLowerCase x ∈ seen)) as [Hin|Hnotin].
    + rewrite IH. split; [tauto|]. intros [?|[->|?]]; auto.
    + rewrite (cons_middle (toLowerCase x)), app_assoc, IH, elem_of_app,
        list_elem_of_singleton.
      tauto.
Qed.

End reference_lemmas.

(** ** The host of the concrete runs *)

Lemma asciiLower_idempotent u : asciiLower (asciiLower u) = asciiLower u.
Proof.
  unfold asciiLower.
  destruct ((65 <=? u)%N && (u <=? 90)%N) eqn:Hu; [|by rewrite Hu].
  apply andb_prop in Hu as [H1%N.leb_le H2%N.leb_le].
  replace (u + 32 <=? 90)%N with false; [by rewrite andb_false_r|].
  symmetry. apply N.leb_gt. lia.
Qed.

Lemma asciiHost_lower_idempotent : @lower_idempotent asciiHost.
Proof.
  intros s. simpl. rewrite map_map. apply map_ext. apply asciiLower_idempotent.
Qed.

Lemma asciiHost_lower_empty : @lower_empty asciiHost.
Proof. done. Qed.

Lemma unitCompare_total a : ∀ b, unitCompare a b ≤ 0 ∨ unitCompare b a ≤ 0.
Proof.
  induction a as [|x a IH]; intros [|y b]; simpl; try lia.
  destruct (N.ltb_spec x y), (N.ltb_spec y x); try lia. apply IH.
Qed.

Lemma unitCompare_transitive a :
  ∀ b c, unitCompare a b ≤ 0 → unitCompare b c ≤ 0 → unitCompare a c ≤ 0.
Proof.
  induction a as [|x a IH]; intros [|y b] [|z c]; simpl; try lia.
  destruct (N.ltb_spec x y), (N.ltb_spec y x), (N.ltb_spec y z),
    (N.ltb_spec z y), (N.ltb_spec x z), (N.ltb_spec z x); try lia.
  apply IH.
Qed.

Lemma asciiHost_compare_consistent : @compare_consistent asciiHost.
Proof.
  split; simpl.
  - intros a b. apply unitCompare_total.
  - intros a b c. apply unitCompare_transitive.
Qed.

(** * The claims *)

(** C8. For all strings [a] and [b]: [editDistance(a, a)] is 0;
    [editDistance(a, b)] equals [editDistance(b, a)]; and
    [editDistance("", b)] is the length of [b]. *)
Theorem editDistance_algebra (a b : jsstring) :
  editDistance a a = Normal 0 ∧
  editDistance a b = editDistance b a ∧
  editDistance [] b = Normal (Z.of_nat (length b)).
Proof.
  split; [apply editDistance_same|]. rewrite !editDistance_lev. split.
  - by rewrite lev_sym.
  - simpl. by rewrite length_reverse.
Qed.

(** C1. After any sequence of [insertWord] calls, [searchWord] of any
    inserted word finds it (the word is lower-cased by the lookup), with the
    definition that the update semantics give: the first insertion sets it,
    a later insertion with a non-empty definition overwrites it, a later
    insertion with an empty definition changes nothing.  [wordList] has no
    duplicate, and inserting a stored word with an empty definition again
    returns the same dictionary. *)
Theorem lookup_after_inserts `{Builtins}
    (inserts : list (jsstring * jsstring)) (w def : jsstring) :
  (w, def) ∈ inserts →
  ∃ d defn,
    insertAll inserts newWordDictionary = Normal d ∧
    expectedDefinition inserts (toLowerCase w) None = Some defn ∧
    searchWord d w = Normal (Lookup.mk true defn) ∧
    NoDup (wordList d) ∧
    (∀ w', toLowerCase w' ∈ wordList d → insertWord d w' [] = Normal d).
Proof.
  intros Hin.
  destruct (insertAll_new inserts) as (d & Hd & Hc & Hl & He).
  destruct (expectedDefinition_inserted inserts w def Hin None) as [defn Hdefn].
  exists d, defn. split; [done|]. split; [done|]. split; [|split].
  - apply searchWord_found. by rewrite He.
  - apply (consistent_once d Hc).
  - intros w' Hw'.
    destruct (insertWord_step d w' [] Hc) as (d' & Hd' & _ & _ & _ & Hsame).
    by rewrite Hd', (Hsame Hw' eq_refl).
Qed.

Lemma lookup_after_inserts_witness :
  (lit "cat", []) ∈ catInserts ∧
  ∃ d defn,
    insertAll (H := asciiHost) catInserts newWordDictionary = Normal d ∧
    expectedDefinition (H := asciiHost) catInserts
      (toLowerCase (Builtins := asciiHost) (lit "cat")) None = Some defn ∧
    searchWord (H := asciiHost) d (lit "cat") = Normal (Lookup.mk true defn) ∧
    NoDup (wordList d) ∧
    (∀ w', toLowerCase (Builtins := asciiHost) w' ∈ wordList d →
           insertWord (H := asciiHost) d w' [] = Normal d).
Proof.
  split.
  - apply list_elem_of_further, list_elem_of_here.
  - apply (lookup_after_inserts (H := asciiHost) catInserts (lit "cat") []).
    apply list_elem_of_further, list_elem_of_here.
Defined.

(** C6. In every dictionary reached by [insertWord] calls from the empty
    one: a string is in [wordsSet] exactly when consuming its characters
    from the root reaches a terminal node; [wordsSet] and [wordList] hold
    the same words; and [wordList] lists each normalized inserted word once,
    in the order of first insertion. *)
Theorem lexicon_invariant `{Builtins} (inserts : list (jsstring * jsstring)) :
  ∃ d,
    insertAll inserts newWordDictionary = Normal d ∧
    (∀ w, w ∈ wordsSet d ↔
          ∃ n, nodeAt (codePoints w) (root d) = Some n ∧ isEndOfWord n = true) ∧
    (∀ w, w ∈ wordsSet d ↔ w ∈ wordList d) ∧
    NoDup (wordList d) ∧
    (∀ w, w ∈ wordList d ↔ ∃ x def, (x, def) ∈ inserts ∧ w = toLowerCase x) ∧
    wordList d = firstInsertions inserts [].
Proof.
  destruct (insertAll_new inserts) as (d & Hd & Hc & Hl & He).
  exists d. split; [done|]. rewrite (consistent_set d Hc).
  split; [|split; [done|split; [|split; [|done]]]].
  - intros w. rewrite <- (consistent_entry d w Hc). unfold entry.
    destruct (nodeAt (codePoints w) (root d)) as [n|].
    + destruct (isEndOfWord n) eqn:Hn.
      * split; [eauto|]. intros _. eauto.
      * split; [by intros [? ?]|]. intros (n' & [= <-] & ?). congruence.
    + split; [by intros [? ?]|]. by intros (? & ? & _).
  - apply (consistent_once d Hc).
  - intros w. rewrite Hl.
    rewrite <- (app_nil_l (firstInsertions inserts [])), elem_of_firstInsertions.
    split; [|auto]. intros [?%elem_of_nil|?]; done.
Qed.

(** C7. On every dictionary reached by [insertWord] calls, and for all
    strings and integers, none of [insertWord], [searchWord],
    [getAutoSuggestions], [getSpellingCorrections] and [editDistance]
    throws; in the update branch of [insertWord] the walk along a stored
    word meets no missing node. *)
Theorem operations_return `{Builtins} (inserts : list (jsstring * jsstring)) :
  ∃ d,
    insertAll inserts newWordDictionary = Normal d ∧
    ∀ (w def prefix a b : jsstring) (maxDistance maxSuggestions : Z),
      returns (insertWord d w def) ∧
      returns (searchWord d w) ∧
      returns (getAutoSuggestions d prefix maxSuggestions) ∧
      returns (getSpellingCorrections d w maxDistance maxSuggestions) ∧
      returns (editDistance a b) ∧
      (Set_has (toLowerCase w) (wordsSet d) = true →
       returns (updateDefinition (codePoints (toLowerCase w)) def (root d))).
Proof.
  destruct (insertAll_new inserts) as (d & Hd & Hc & Hl & He).
  exists d. split; [done|]. intros w def prefix a b maxDistance maxSuggestions.
  split; [|split; [|split; [|split; [|split]]]].
  - destruct (insertWord_step d w def Hc) as (d' & Hd' & _). by exists d'.
  - rewrite searchWord_entry. by eexists.
  - unfold getAutoSuggestions. rewrite descend_nodeAt. simpl.
    destruct (nodeAt _ _); by eexists.
  - unfold getSpellingCorrections. rewrite scanCandidates_spec. simpl.
    by eexists.
  - rewrite editDistance_lev. by eexists.
  - intros Hhas%Set_has_true. rewrite (consistent_set d Hc) in Hhas.
    apply (consistent_entry d _ Hc) in Hhas as [old Hold].
    destruct (updateDefinition_spec _ def _ _ Hold) as (root' & Hroot' & _).
    by exists root'.
Qed.

(** C2. On every dictionary built by insertions, for every prefix and every
    positive [maxSuggestions], [getAutoSuggestions] does not throw; it
    returns at most [maxSuggestions] distinct words; each of them is found
    by [searchWord] and starts with the lower-cased prefix; and when no
    stored word starts with the prefix, in particular when the prefix is not
    a path of the trie, it returns the empty sequence. *)
Theorem suggestions_contract `{Builtins}
    (inserts : list (jsstring * jsstring)) (prefix : jsstring)
    (maxSuggestions : Z) :
  lower_idempotent →
  0 < maxSuggestions →
  ∃ d r,
    insertAll inserts newWordDictionary = Normal d ∧
    getAutoSuggestions d prefix maxSuggestions = Normal r ∧
    Z.of_nat (length r) ≤ maxSuggestions ∧
    NoDup r ∧
    (∀ w, w ∈ r →
       (∃ defn, searchWord d w = Normal (Lookup.mk true defn)) ∧
       toLowerCase prefix `prefix_of` w ∧
       toLowerCase prefix `prefix_of` toLowerCase w) ∧
    ((∀ w, w ∈ wordList d → ¬ toLowerCase prefix `prefix_of` w) → r = []) ∧
    (nodeAt (codePoints (toLowerCase prefix)) (root d) = None → r = []).
Proof.
  intros Hidem Hmax.
  destruct (insertAll_new inserts) as (d & Hd & Hc & Hl & He).
  exists d, (take (Z.to_nat maxSuggestions) (subtreeWords d (toLowerCase prefix))).
  assert (∀ w, w ∈ take (Z.to_nat maxSuggestions)
                      (subtreeWords d (toLowerCase prefix)) →
               w ∈ wordList d ∧ toLowerCase prefix `prefix_of` w) as Hstored.
  { intros w Hw%(subseteq_take _ _ w).
    apply (elem_of_subtreeWords d _ w Hc) in Hw as [Hw [q Hq]].
    split; [done|]. exists (concat q). by apply concat_path_word. }
  split; [done|]. split; [apply getAutoSuggestions_spec; [done|lia]|].
  split; [rewrite length_take; lia|].
  split; [eapply sublist_NoDup; [by apply NoDup_subtreeWords|apply sublist_take]|].
  split; [|split].
  - intros w [Hw Hpre]%Hstored.
    destruct (consistent_lower d Hc w Hw) as [x ->].
    rewrite Hidem. split; [|done].
    apply (consistent_entry d _ Hc) in Hw as [defn Hdefn].
    exists defn. apply searchWord_found. by rewrite Hidem.
  - intros Hnone.
    destruct (take _ _) as [|w r] eqn:Hr; [done|].
    destruct (Hstored w) as [Hw Hpre]; [apply list_elem_of_here|].
    by destruct (Hnone w Hw).
  - intros Hnone. unfold subtreeWords. rewrite Hnone. apply take_nil.
Qed.

Lemma suggestions_contract_witness :
  @lower_idempotent asciiHost ∧ 0 < 10 ∧
  ∃ d r,
    insertAll (H := asciiHost) scenarioInserts newWordDictionary = Normal d ∧
    getAutoSuggestions (H := asciiHost) d (lit "APP") 10 = Normal r ∧
    Z.of_nat (length r) ≤ 10 ∧
    NoDup r ∧
    (∀ w, w ∈ r →
       (∃ defn, searchWord (H := asciiHost) d w =
                  Normal (Lookup.mk true defn)) ∧
       toLowerCase (Builtins := asciiHost) (lit "APP") `prefix_of` w ∧
       toLowerCase (Builtins := asciiHost) (lit "APP") `prefix_of`
         toLowerCase (Builtins := asciiHost) w) ∧
    ((∀ w, w ∈ wordList d →
        ¬ toLowerCase (Builtins := asciiHost) (lit "APP") `prefix_of` w) →
     r = []) ∧
    (nodeAt (codePoints (toLowerCase (Builtins := asciiHost) (lit "APP")))
       (root d) = None → r = []).
Proof.
  split; [exact asciiHost_lower_idempotent|]. split; [lia|].
  apply (suggestions_contract (H := asciiHost) scenarioInserts (lit "APP") 10).
  - exact asciiHost_lower_idempotent.
  - lia.
Defined.

(** C9, as the code has it.  On every dictionary built by insertions and
    for every prefix, [getAutoSuggestions(prefix, maxSuggestions)] returns
    exactly min(maxSuggestions, N) words, N being the number of stored
    words whose characters, as [for...of] reads them, begin with the
    characters of the lower-cased prefix: neither the cap of
    [maxSuggestions * 3] nor the removal of duplicates drops a completion.
    When the lower-cased prefix does not end in the first half of a
    surrogate pair, N counts the stored words that start with it as
    strings. *)
Theorem suggestions_count `{Builtins}
    (inserts : list (jsstring * jsstring)) (prefix : jsstring)
    (maxSuggestions : Z) :
  0 ≤ maxSuggestions →
  ∃ d r,
    insertAll inserts newWordDictionary = Normal d ∧
    getAutoSuggestions d prefix maxSuggestions = Normal r ∧
    Z.of_nat (length r) =
      Z.min maxSuggestions
        (Z.of_nat (length (completions d (toLowerCase prefix)))) ∧
    NoDup (completions d (toLowerCase prefix)) ∧
    (endsInHighSurrogate (toLowerCase prefix) = false →
     ∀ w, w ∈ completions d (toLowerCase prefix) ↔
          w ∈ wordList d ∧ toLowerCase prefix `prefix_of` w).
Proof.
  intros Hmax.
  destruct (insertAll_new inserts) as (d & Hd & Hc & Hl & He).
  eexists d, _. split; [done|].
  split; [by apply getAutoSuggestions_spec|].
  split; [|split].
  - rewrite length_take, (subtreeWords_completions d _ Hc). lia.
  - apply NoDup_filter, (consistent_once d Hc).
  - intros Hend w. unfold completions.
    rewrite list_elem_of_filter, (codePoints_prefix _ _ Hend). tauto.
Qed.

Lemma suggestions_count_witness :
  0 ≤ 2 ∧
  ∃ d r,
    insertAll (H := asciiHost) scenarioInserts newWordDictionary = Normal d ∧
    getAutoSuggestions (H := asciiHost) d (lit "ap") 2 = Normal r ∧
    Z.of_nat (length r) =
      Z.min 2
        (Z.of_nat (length (completions d
           (toLowerCase (Builtins := asciiHost) (lit "ap"))))) ∧
    NoDup (completions d (toLowerCase (Builtins := asciiHost) (lit "ap"))) ∧
    (endsInHighSurrogate (toLowerCase (Builtins := asciiHost) (lit "ap")) = false →
     ∀ w, w ∈ completions d (toLowerCase (Builtins := asciiHost) (lit "ap")) ↔
          w ∈ wordList d ∧
          toLowerCase (Builtins := asciiHost) (lit "ap") `prefix_of` w).
Proof.
  split; [lia|].
  apply (suggestions_count (H := asciiHost) scenarioInserts (lit "ap") 2). lia.
Defined.

(** The claim C9 fails: with N the number of stored words that start with
    the lower-cased prefix as strings, the result need not have
    min(maxSuggestions, N) words.  The two stored words both start with the
    code unit D83D, so N is 2; but the trie is keyed by whole characters,
    the prefix made of that code unit alone is one character with no edge
    at the root, and nothing is returned. *)
Lemma suggestions_count_counterexample :
  ∃ d r,
    insertAll (H := asciiHost) faceInserts newWordDictionary = Normal d ∧
    toLowerCase (Builtins := asciiHost) [55357%N] = [55357%N] ∧
    wordList d = [[55357%N; 56832%N]; [55357%N; 56833%N]] ∧
    Forall (λ w, [55357%N] `prefix_of` w) (wordList d) ∧
    getAutoSuggestions (H := asciiHost) d [55357%N] 10 = Normal r ∧
    r = [] ∧
    Z.of_nat (length r) ≠
      Z.min 10
        (Z.of_nat (length (filter (λ w, [55357%N] `prefix_of` w) (wordList d)))).
Proof.
  eexists _, _. split; [vm_compute; reflexivity|].
  split; [reflexivity|]. split; [reflexivity|].
  split.
  { repeat constructor; eexists; reflexivity. }
  split; [vm_compute; reflexivity|]. split; [reflexivity|].
  vm_compute. discriminate.
Qed.

(** C4, as the code has it.  The walk visits the child edges in the order
    in which the edges were created ([Map] insertion order), not in an order
    of the characters: the result is the first [maxSuggestions] words of
    that walk.  Two dictionaries built from the same set of normalized words
    return sequences of the same length, and the same words up to order
    whenever [maxSuggestions] is at least the number of completions. *)
Theorem suggestions_same_words `{Builtins}
    (inserts1 inserts2 : list (jsstring * jsstring)) (prefix : jsstring)
    (maxSuggestions : Z) :
  0 ≤ maxSuggestions →
  (∀ w, w ∈ normalizedWords inserts1 ↔ w ∈ normalizedWords inserts2) →
  ∃ d1 d2 r1 r2,
    insertAll inserts1 newWordDictionary = Normal d1 ∧
    insertAll inserts2 newWordDictionary = Normal d2 ∧
    getAutoSuggestions d1 prefix maxSuggestions = Normal r1 ∧
    getAutoSuggestions d2 prefix maxSuggestions = Normal r2 ∧
    r1 = take (Z.to_nat maxSuggestions) (subtreeWords d1 (toLowerCase prefix)) ∧
    r2 = take (Z.to_nat maxSuggestions) (subtreeWords d2 (toLowerCase prefix)) ∧
    length r1 = length r2 ∧
    (Z.of_nat (length (completions d1 (toLowerCase prefix))) ≤ maxSuggestions →
     r1 ≡ₚ r2).
Proof.
  intros Hmax Hsame.
  destruct (insertAll_new inserts1) as (d1 & Hd1 & Hc1 & Hl1 & _).
  destruct (insertAll_new inserts2) as (d2 & Hd2 & Hc2 & Hl2 & _).
  assert (∀ inserts d, wordList d = firstInsertions inserts [] →
            ∀ w, w ∈ wordList d ↔ w ∈ normalizedWords inserts) as Hwords.
  { intros inserts d Hl w. rewrite Hl.
    rewrite <- (app_nil_l (firstInsertions inserts [])), elem_of_firstInsertions.
    unfold normalizedWords. rewrite list_elem_of_fmap. split.
    - intros [?%elem_of_nil|(x & def & Hin & ->)]; [done|]. by exists (x, def).
    - intros ([x def] & -> & Hin). right. by exists x, def. }
  assert (wordList d1 ≡ₚ wordList d2) as Hperm.
  { apply NoDup_Permutation;
      [apply (consistent_once d1 Hc1) | apply (consistent_once d2 Hc2) |].
    intros w. by rewrite (Hwords inserts1 d1 Hl1), (Hwords inserts2 d2 Hl2). }
  assert (completions d1 (toLowerCase prefix) ≡ₚ
          completions d2 (toLowerCase prefix)) as Hcompl.
  { unfold completions. by rewrite Hperm. }
  eexists d1, d2, _, _. split; [done|]. split; [done|].
  split; [by apply getAutoSuggestions_spec|].
  split; [by apply getAutoSuggestions_spec|].
  split; [done|]. split; [done|]. split.
  - rewrite !length_take.
    by rewrite (subtreeWords_completions d1 _ Hc1),
      (subtreeWords_completions d2 _ Hc2), Hcompl.
  - intros Hall.
    rewrite !take_ge.
    + by rewrite (subtreeWords_completions d1 _ Hc1),
        (subtreeWords_completions d2 _ Hc2).
    + rewrite (subtreeWords_completions d2 _ Hc2), <- Hcompl. lia.
    + rewrite (subtreeWords_completions d1 _ Hc1). lia.
Qed.

Lemma suggestions_same_words_witness :
  0 ≤ 10 ∧
  (∀ w, w ∈ normalizedWords (H := asciiHost) baInserts ↔
        w ∈ normalizedWords (H := asciiHost) abInserts) ∧
  ∃ d1 d2 r1 r2,
    insertAll (H := asciiHost) baInserts newWordDictionary = Normal d1 ∧
    insertAll (H := asciiHost) abInserts newWordDictionary = Normal d2 ∧
    getAutoSuggestions (H := asciiHost) d1 [] 10 = Normal r1 ∧
    getAutoSuggestions (H := asciiHost) d2 [] 10 = Normal r2 ∧
    r1 = take (Z.to_nat 10)
           (subtreeWords d1 (toLowerCase (Builtins := asciiHost) [])) ∧
    r2 = take (Z.to_nat 10)
           (subtreeWords d2 (toLowerCase (Builtins := asciiHost) [])) ∧
    length r1 = length r2 ∧
    (Z.of_nat (length (completions d1 (toLowerCase (Builtins := asciiHost) [])))
       ≤ 10 → r1 ≡ₚ r2).
Proof.
  assert (∀ w, w ∈ normalizedWords (H := asciiHost) baInserts ↔
               w ∈ normalizedWords (H := asciiHost) abInserts) as Hsame.
  { intros w. vm_compute normalizedWords. rewrite !elem_of_cons. tauto. }
  split; [lia|]. split; [exact Hsame|].
  apply (suggestions_same_words (H := asciiHost) baInserts abInserts [] 10);
    [lia | exact Hsame].
Defined.

(** The claim C4 fails: the two orders of inserting "a" and "b" give
    suggestions in two different orders, and "b" can come before "a". *)
Lemma suggestions_order_counterexample :
  (∀ w, w ∈ normalizedWords (H := asciiHost) baInserts ↔
        w ∈ normalizedWords (H := asciiHost) abInserts) ∧
  ∃ d1 d2,
    insertAll (H := asciiHost) baInserts newWordDictionary = Normal d1 ∧
    insertAll (H := asciiHost) abInserts newWordDictionary = Normal d2 ∧
    getAutoSuggestions (H := asciiHost) d1 [] 10 = Normal [lit "b"; lit "a"] ∧
    getAutoSuggestions (H := asciiHost) d2 [] 10 = Normal [lit "a"; lit "b"] ∧
    getAutoSuggestions (H := asciiHost) d1 [] 10 ≠
      getAutoSuggestions (H := asciiHost) d2 [] 10.
Proof.
  split.
  { intros w. vm_compute normalizedWords. rewrite !elem_of_cons. tauto. }
  eexists _, _. split; [vm_compute; reflexivity|].
  split; [vm_compute; reflexivity|].
  split; [vm_compute; reflexivity|].
  split; [vm_compute; reflexivity|].
  vm_compute. discriminate.
Qed.

(** C3. On every dictionary built by insertions, for every query word and
    every positive [maxSuggestions], [getSpellingCorrections] returns words
    only, among them never the lower-cased query (nor the query itself);
    every returned word is at an edit distance from the lower-cased query
    that is positive and at most [maxDistance]; the words are sorted by that
    distance, ties by [localeCompare]; no word comes twice; and there are at
    most [maxSuggestions] of them. *)
Theorem corrections_ranked `{Builtins}
    (inserts : list (jsstring * jsstring)) (word : jsstring)
    (maxDistance maxSuggestions : Z) :
  compare_consistent →
  0 < maxSuggestions →
  ∃ d r,
    insertAll inserts newWordDictionary = Normal d ∧
    getSpellingCorrections d word maxDistance maxSuggestions = Normal r ∧
    (toLowerCase word ∉ r) ∧
    (lower_idempotent → word ∉ r) ∧
    (∀ w, w ∈ r →
       ∃ k, editDistance (toLowerCase word) w = Normal k ∧
            0 < k ≤ maxDistance) ∧
    StronglySorted (rankedBefore (toLowerCase word)) r ∧
    NoDup r ∧
    Z.of_nat (length r) ≤ maxSuggestions.
Proof.
  intros Hcmp Hmax.
  destruct (insertAll_new inserts) as (d & Hd & Hc & Hl & He).
  pose proof (consistent_once d Hc) as Hnd.
  set (candidates := omap (candidateOf (toLowerCase word) maxDistance) (wordList d)).
  set (sorted := Array_sort byDistanceThenWord candidates).
  assert (sorted ≡ₚ candidates) as Hperm by apply Array_sort_Permutation.
  set (kept := λ c, Candidate.word c ∈ wordList d ∧
                    editDistance (toLowerCase word) (Candidate.word c) =
                      Normal (Candidate.distance c) ∧
                    0 < Candidate.distance c ≤ maxDistance).
  assert (Forall kept sorted) as Hall.
  { apply Forall_forall. intros c Hin. rewrite Hperm in Hin.
    apply list_elem_of_omap in Hin as (w & Hw & Hcand).
    apply candidateOf_Some in Hcand as (<- & Hdist & Hrange) .
    split; [done|]. split; [|done]. by rewrite editDistance_lev, Hdist. }
  assert (∀ w, w ∈ Candidate.word <$> take (Z.to_nat maxSuggestions) sorted →
            w ∈ wordList d ∧
            ∃ k, editDistance (toLowerCase word) w = Normal k ∧
                 0 < k ≤ maxDistance) as Hres.
  { intros w (c & -> & Hin%(subseteq_take _ _ c))%list_elem_of_fmap.
    destruct (proj1 (Forall_forall _ _) Hall c Hin) as (? & ? & ?). eauto. }
  assert (toLowerCase word ∉
            Candidate.word <$> take (Z.to_nat maxSuggestions) sorted) as Hself.
  { intros (_ & k & Hk & Hpos)%Hres.
    rewrite editDistance_same in Hk.
    injection Hk as <-. lia. }
  eexists d, _. split; [done|].
  split; [by apply getSpellingCorrections_spec|].
  split; [done|]. split; [|split; [|split; [|split]]].
  - intros Hidem Hin. pose proof Hin as [Hw _]%Hres.
    destruct (consistent_lower d Hc word Hw) as [x Hx].
    assert (toLowerCase word = word) as Heq by (rewrite Hx; apply Hidem).
    apply Hself. by rewrite Heq.
  - intros w Hw. by apply Hres.
  - apply (StronglySorted_fmap_on _ kept (notAfter byDistanceThenWord));
      [|apply Forall_take, Hall|].
    + intros x y (_ & Hx & _) (_ & Hy & _) Hxy.
      apply byDistanceThenWord_notAfter in Hxy.
      exists (Candidate.distance x), (Candidate.distance y). done.
    + apply StronglySorted_take.
      apply Array_sort_sorted;
        [apply (byDistanceThenWord_total Hcmp)
        |apply (byDistanceThenWord_transitive Hcmp)].
  - rewrite fmap_take.
    apply (sublist_NoDup _ (Candidate.word <$> sorted)); [|apply sublist_take].
    rewrite Hperm. by apply NoDup_candidates.
  - rewrite length_fmap, length_take. lia.
Qed.

Lemma corrections_ranked_witness :
  @compare_consistent asciiHost ∧ 0 < 5 ∧
  ∃ d r,
    insertAll (H := asciiHost) scenarioInserts newWordDictionary = Normal d ∧
    getSpellingCorrections (H := asciiHost) d (lit "Aple") 2 5 = Normal r ∧
    (toLowerCase (Builtins := asciiHost) (lit "Aple") ∉ r) ∧
    (@lower_idempotent asciiHost → lit "Aple" ∉ r) ∧
    (∀ w, w ∈ r →
       ∃ k, editDistance (toLowerCase (Builtins := asciiHost) (lit "Aple")) w =
              Normal k ∧
            0 < k ≤ 2) ∧
    StronglySorted
      (rankedBefore (H := asciiHost)
         (toLowerCase (Builtins := asciiHost) (lit "Aple"))) r ∧
    NoDup r ∧
    Z.of_nat (length r) ≤ 5.
Proof.
  split; [exact asciiHost_compare_consistent|]. split; [lia|].
  apply (corrections_ranked (H := asciiHost) scenarioInserts (lit "Aple") 2 5).
  - exact asciiHost_compare_consistent.
  - lia.
Defined.

(** C5, as the code has it.  After the inserts of scenario A,
    [getSpellingCorrections("aple", 2, 5)] returns apple, app, apply: apple
    at distance 1 first, then the two words at distance 2, app before apply
    as [localeCompare] orders them. *)
Theorem scenario_corrections `{Builtins} :
  (∀ s, s ∈ [lit "apple"; lit "apply"; lit "app"; lit "aple"] →
        toLowerCase s = s) →
  localeCompare (lit "app") (lit "apply") < 0 →
  ∃ d,
    insertAll scenarioInserts newWordDictionary = Normal d ∧
    getSpellingCorrections d (lit "aple") 2 5 =
      Normal [lit "apple"; lit "app"; lit "apply"].
Proof.
  intros Hlow Hlt.
  destruct (insertAll_new scenarioInserts) as (d & Hd & Hc & Hl & He).
  exists d. split; [done|].
  rewrite getSpellingCorrections_spec; [|apply (consistent_once d Hc)|lia].
  rewrite Hl. unfold scenarioInserts. simpl firstInsertions.
  rewrite !Hlow by (rewrite !elem_of_cons; auto).
  match goal with |- context [omap ?f ?l] => set (c := omap f l) end.
  vm_compute in c. subst c.
  unfold Array_sort. simpl.
  rewrite decide_True; [reflexivity|].
  unfold byDistanceThenWord. simpl.
  change (localeCompare (lit "app") (lit "apply") < 0). done.
Qed.

Lemma scenario_corrections_witness :
  (∀ s, s ∈ [lit "apple"; lit "apply"; lit "app"; lit "aple"] →
        toLowerCase (Builtins := asciiHost) s = s) ∧
  localeCompare (Builtins := asciiHost) (lit "app") (lit "apply") < 0 ∧
  ∃ d,
    insertAll (H := asciiHost) scenarioInserts newWordDictionary = Normal d ∧
    getSpellingCorrections (H := asciiHost) d (lit "aple") 2 5 =
      Normal [lit "apple"; lit "app"; lit "apply"].
Proof.
  assert (∀ s, s ∈ [lit "apple"; lit "apply"; lit "app"; lit "aple"] →
               toLowerCase (Builtins := asciiHost) s = s) as Hlow.
  { intros s Hs. rewrite !elem_of_cons in Hs.
    destruct Hs as [->|[->|[->|[->|Hs]]]]; [reflexivity..|].
    by apply elem_of_nil in Hs. }
  split; [exact Hlow|]. split; [reflexivity|].
  apply (scenario_corrections (H := asciiHost)); [exact Hlow | reflexivity].
Defined.

(** The claim C5 fails: the call returns three words, not apple alone. *)
Lemma scenario_corrections_counterexample :
  ∃ d,
    insertAll (H := asciiHost) scenarioInserts newWordDictionary = Normal d ∧
    getSpellingCorrections (H := asciiHost) d (lit "aple") 2 5 =
      Normal [lit "apple"; lit "app"; lit "apply"] ∧
    getSpellingCorrections (H := asciiHost) d (lit "aple") 2 5 ≠
      Normal [lit "apple"].
Proof.
  eexists. split; [vm_compute; reflexivity|].
  split; [vm_compute; reflexivity|].
  vm_compute. discriminate.
Qed.

(** C10.  Inserting the empty string marks the root terminal and puts the
    empty string in [wordsSet] and [wordList]; after any further inserts
    [searchWord("")] finds it, with the definition the update semantics give
    to the empty string (the one just given, when it is its first insertion);
    and the scan of [getSpellingCorrections] keeps the empty string as a
    candidate for every query whose length is positive and at most
    [maxDistance], so that it is among the corrections returned when
    [maxSuggestions] does not cut them short. *)
Theorem insert_empty_word `{Builtins}
    (before after : list (jsstring * jsstring)) (def : jsstring) :
  lower_empty →
  ∃ d0 d1 d2 defn,
    insertAll before newWordDictionary = Normal d0 ∧
    insertWord d0 [] def = Normal d1 ∧
    insertAll after d1 = Normal d2 ∧
    isEndOfWord (root d1) = true ∧
    [] ∈ wordsSet d1 ∧ [] ∈ wordList d1 ∧
    ([] ∉ wordList d0 → definition (root d1) = def) ∧
    [] ∈ wordList d2 ∧
    expectedDefinition (before ++ ([], def) :: after) [] None = Some defn ∧
    searchWord d2 [] = Normal (Lookup.mk true defn) ∧
    (∀ word maxDistance,
       0 < Z.of_nat (length (toLowerCase word)) ≤ maxDistance →
       ∃ candidates,
         scanCandidates (toLowerCase word) maxDistance (wordList d2) [] =
           Normal candidates ∧
         Candidate.mk [] (Z.of_nat (length (toLowerCase word))) ∈ candidates) ∧
    (∀ word maxDistance maxSuggestions,
       0 < Z.of_nat (length (toLowerCase word)) ≤ maxDistance →
       Z.of_nat (length (wordList d2)) ≤ maxSuggestions →
       ∃ r, getSpellingCorrections d2 word maxDistance maxSuggestions =
              Normal r ∧ [] ∈ r).
Proof.
  intros Hempty. unfold lower_empty in Hempty.
  destruct (insertAll_new before) as (d0 & Hd0 & Hc0 & Hl0 & He0).
  destruct (insertWord_step d0 [] def Hc0) as (d1 & Hd1 & Hc1 & Hl1 & He1 & _).
  destruct (insertAll_spec after d1 Hc1) as (d2 & Hd2 & Hc2 & Hl2 & He2).
  rewrite Hempty in Hl1, He1.
  assert ([] ∈ wordList d1) as Hin1.
  { rewrite Hl1. destruct (decide ([] ∈ wordList d0)); [done|].
    apply elem_of_app. right. apply list_elem_of_here. }
  assert ([] ∈ wordList d2) as Hin2.
  { rewrite Hl2. apply elem_of_app. by left. }
  assert (entry (root d2) [] =
          expectedDefinition (before ++ ([], def) :: after) [] None) as Hdef.
  { pose proof (He0 []) as H0. pose proof (He2 []) as H2. simpl in H0, H2.
    rewrite expectedDefinition_app, expectedDefinition_step.
    rewrite decide_True by done.
    rewrite H2, (He1 []), decide_True by done.
    by rewrite H0. }
  destruct (proj2 (consistent_entry d2 [] Hc2) Hin2) as [defn Hdefn].
  exists d0, d1, d2, defn. split; [done|]. split; [done|]. split; [done|].
  split; [|split; [|split; [done|split; [|split; [done|split; [|split; [|split]]]]]]].
  - destruct (proj2 (consistent_entry d1 [] Hc1) Hin1) as [x Hx].
    rewrite entry_nil in Hx. by destruct (isEndOfWord (root d1)).
  - by rewrite (consistent_set d1 Hc1).
  - intros Hnew. specialize (He1 []). rewrite decide_True in He1 by done.
    assert (entry (root d0) [] = None) as Hnone.
    { destruct (entry (root d0) []) eqn:He; [|done].
      destruct Hnew. apply (consistent_entry d0 [] Hc0). eauto. }
    rewrite Hnone, entry_nil in He1.
    destruct (isEndOfWord (root d1)); congruence.
  - by rewrite <- Hdef.
  - apply searchWord_found. by rewrite Hempty.
  - intros word maxDistance Hlen. eexists. split; [apply scanCandidates_spec|].
    simpl. apply list_elem_of_omap. exists []. split; [done|].
    by apply candidateOf_empty.
  - intros word maxDistance maxSuggestions Hlen Hmax.
    assert (0 < length (wordList d2))%nat as Hpos.
    { destruct (wordList d2); [by apply elem_of_nil in Hin2 | simpl; lia]. }
    eexists. split.
    { apply getSpellingCorrections_spec; [apply (consistent_once d2 Hc2) | lia]. }
    rewrite take_ge.
    + apply list_elem_of_fmap.
      exists (Candidate.mk [] (Z.of_nat (length (toLowerCase word)))).
      split; [done|]. rewrite Array_sort_Permutation.
      apply list_elem_of_omap. exists []. split; [done|].
      by apply candidateOf_empty.
    + rewrite Array_sort_Permutation.
      pose proof (length_candidates (toLowerCase word) maxDistance (wordList d2)).
      lia.
Qed.

Lemma insert_empty_word_witness :
  @lower_empty asciiHost ∧
  ∃ d0 d1 d2 defn,
    insertAll (H := asciiHost) scenarioInserts newWordDictionary = Normal d0 ∧
    insertWord (H := asciiHost) d0 [] (lit "nothing") = Normal d1 ∧
    insertAll (H := asciiHost) catInserts d1 = Normal d2 ∧
    isEndOfWord (root d1) = true ∧
    [] ∈ wordsSet d1 ∧ [] ∈ wordList d1 ∧
    ([] ∉ wordList d0 → definition (root d1) = lit "nothing") ∧
    [] ∈ wordList d2 ∧
    expectedDefinition (H := asciiHost)
      (scenarioInserts ++ ([], lit "nothing") :: catInserts) [] None =
      Some defn ∧
    searchWord (H := asciiHost) d2 [] = Normal (Lookup.mk true defn) ∧
    (∀ word maxDistance,
       0 < Z.of_nat (length (toLowerCase (Builtins := asciiHost) word))
         ≤ maxDistance →
       ∃ candidates,
         scanCandidates (toLowerCase (Builtins := asciiHost) word) maxDistance
           (wordList d2) [] = Normal candidates ∧
         Candidate.mk []
           (Z.of_nat (length (toLowerCase (Builtins := asciiHost) word)))
           ∈ candidates) ∧
    (∀ word maxDistance maxSuggestions,
       0 < Z.of_nat (length (toLowerCase (Builtins := asciiHost) word))
         ≤ maxDistance →
       Z.of_nat (length (wordList d2)) ≤ maxSuggestions →
       ∃ r, getSpellingCorrections (H := asciiHost) d2 word maxDistance
              maxSuggestions = Normal r ∧ [] ∈ r).
Proof.
  split; [exact asciiHost_lower_empty|].
  apply (insert_empty_word (H := asciiHost) scenarioInserts catInserts
           (lit "nothing")).
  exact asciiHost_lower_empty.
Defined.

(** * Further properties of the engine *)

(** ** Definitions sit on terminal nodes only *)

Lemma tidy_newTrieNode : tidy newTrieNode.
Proof. constructor; [done | constructor]. Qed.

Lemma tidy_inv node :
  tidy node →
  (isEndOfWord node = false → definition node = []) ∧
  Forall (λ kv, tidy (snd kv)) (children node).
Proof. by intros [kids e def Hdef Hall]. Qed.

Lemma tidy_child node ch next :
  tidy node → Map_get ch (children node) = Some next → tidy next.
Proof.
  intros [_ Hall]%tidy_inv Hget%Map_get_elem_of.
  by apply (proj1 (Forall_forall _ _) Hall (ch, next)).
Qed.

Lemma tidy_nodeAt path :
  ∀ node sub, tidy node → nodeAt path node = Some sub → tidy sub.
Proof.
  induction path as [|ch rest IH]; intros node sub Ht; simpl.
  - by intros [= <-].
  - destruct (Map_get ch (children node)) as [next|] eqn:Hget; [|done].
    apply IH. by eapply tidy_child.
Qed.

Lemma insertPath_tidy chars def :
  ∀ node node', tidy node → insertPath chars def node = Normal node' →
                tidy node'.
Proof.
  induction chars as [|ch rest IH]; intros [kids e d0] node' Ht; simpl.
  - intros [= <-]. apply tidy_inv in Ht as [_ Hall]. by constructor.
  - apply tidy_inv in Ht as [Hdef Hall]. simpl in Hdef, Hall.
    set (kids' := if negb (Map_has ch kids)
                  then Map_set ch newTrieNode kids else kids).
    assert (Forall (λ kv, tidy (snd kv)) kids') as Hall'.
    { subst kids'. destruct (negb _); [|done].
      apply Map_set_Forall; [done | apply tidy_newTrieNode]. }
    destruct (Map_get ch kids') as [next|] eqn:Hget; [|done].
    intros (next' & Hnext' & [= <-])%bind_Normal.
    constructor; [done|]. apply Map_set_Forall; [done|]. simpl.
    apply (IH next); [|done].
    apply Map_get_elem_of in Hget.
    by apply (proj1 (Forall_forall _ _) Hall' (ch, next)).
Qed.

Lemma updateDefinition_tidy chars def :
  ∀ node node', tidy node → is_Some (entry node chars) →
                updateDefinition chars def node = Normal node' → tidy node'.
Proof.
  induction chars as [|ch rest IH]; intros [kids e d0] node' Ht Hentry; simpl.
  - intros [= <-]. apply tidy_inv in Ht as [_ Hall].
    rewrite entry_nil in Hentry. simpl in Hentry.
    destruct e; [|by destruct Hentry]. by constructor.
  - rewrite entry_cons in Hentry. simpl in Hentry.
    pose proof Ht as [Hdef Hall]%tidy_inv. simpl in Hdef, Hall.
    destruct (Map_get ch kids) as [next|] eqn:Hget; [|by destruct Hentry].
    intros (next' & Hnext' & [= <-])%bind_Normal.
    constructor; [done|]. apply Map_set_Forall; [done|]. simpl.
    apply (IH next); [|done|done].
    by apply (tidy_child _ ch next Ht).
Qed.

(** Writing again the definition a word has changes nothing. *)
Lemma Map_set_same {V} k (v : V) m : Map_get k m = Some v → Map_set k v m = m.
Proof.
  induction m as [|[k0 v0] m IH]; simpl; [done|].
  destruct (decide (k0 = k)) as [->|Hne].
  - by intros [= ->].
  - intros Hget. by rewrite IH.
Qed.

Lemma updateDefinition_same chars def :
  ∀ node, entry node chars = Some def →
          updateDefinition chars def node = Normal node.
Proof.
  induction chars as [|ch rest IH]; intros [kids e d0]; simpl.
  - rewrite entry_nil. simpl. destruct e; [|done]. intros [= ->].
    unfold or_else. by destruct (truthy def).
  - rewrite entry_cons. simpl.
    destruct (Map_get ch kids) as [next|] eqn:Hget; [|done].
    intros Hentry. rewrite (IH next Hentry). simpl.
    by rewrite (Map_set_same _ _ _ Hget).
Qed.

Section built.
Context `{Builtins}.

Lemma insertWord_tidy d w def d' :
  consistent d → tidy (root d) → insertWord d w def = Normal d' →
  tidy (root d').
Proof.
  intros Hd Ht. unfold insertWord.
  destruct (Set_has _ _) eqn:Hhas.
  - destruct (truthy def); [|by intros [= <-]].
    intros (root' & Hroot' & [= <-])%bind_Normal. simpl.
    apply (updateDefinition_tidy _ _ _ _ Ht) in Hroot'; [done|].
    apply (consistent_entry d _ Hd). rewrite <- (consistent_set d Hd).
    by apply Set_has_true.
  - intros (root' & Hroot' & [= <-])%bind_Normal. simpl.
    by apply (insertPath_tidy _ _ _ _ Ht) in Hroot'.
Qed.

Lemma insertAll_tidy inserts :
  ∀ d d', consistent d → tidy (root d) → insertAll inserts d = Normal d' →
          tidy (root d').
Proof.
  induction inserts as [|[x def] rest IH]; intros d d' Hd Ht; simpl.
  - by intros [= <-].
  - intros (d1 & Hd1 & Hrest)%bind_Normal.
    destruct (insertWord_step d x def Hd) as (d1' & Hd1' & Hc1 & _).
    rewrite Hd1 in Hd1'. injection Hd1' as <-.
    apply (IH d1 d' Hc1); [|done]. by apply (insertWord_tidy d x def).
Qed.

(** What is known of a dictionary made by inserts alone. *)
Lemma built inserts :
  ∃ d, insertAll inserts newWordDictionary = Normal d ∧ consistent d ∧
    tidy (root d) ∧
    (∀ w, w ∈ wordList d ↔ w ∈ normalizedWords inserts).
Proof.
  destruct (insertAll_new inserts) as (d & Hd & Hc & Hl & He).
  exists d. split; [done|]. split; [done|]. split.
  - apply (insertAll_tidy inserts newWordDictionary d consistent_new); [|done].
    apply tidy_newTrieNode.
  - intros w. rewrite Hl.
    rewrite <- (app_nil_l (firstInsertions inserts [])), elem_of_firstInsertions.
    unfold normalizedWords. rewrite list_elem_of_fmap. split.
    + intros [?%elem_of_nil|(x & def & Hin & ->)]; [done|]. by exists (x, def).
    + intros ([x def] & -> & Hin). right. by exists x, def.
Qed.

(** On a tidy trie the answer of [searchWord] is read from the entry at the
    code points of the lower-cased word. *)
Lemma searchWord_lookupOf d w :
  tidy (root d) →
  searchWord d w =
    Normal (lookupOf (entry (root d) (codePoints (toLowerCase w)))).
Proof.
  intros Ht. rewrite searchWord_entry. unfold entry.
  destruct (nodeAt _ _) as [n|] eqn:Hn; [|done].
  apply (tidy_nodeAt _ _ _ Ht) in Hn. apply tidy_inv in Hn as [Hdef _].
  destruct (isEndOfWord n); [done|]. simpl. by rewrite Hdef.
Qed.

End built.

(** A decidable statement about concrete data, by evaluation. *)
Ltac by_evaluation :=
  match goal with
  | |- ?P => apply (bool_decide_unpack P); vm_compute; exact I
  end.

Section dictionary_extras.
Context `{Builtins}.

Lemma lookupOf_found e def : lookupOf e = Lookup.mk true def → e = Some def.
Proof. destruct e; simpl; [by intros [= ->] | done]. Qed.

Lemma expectedDefinition_keeps inserts w :
  ∀ def, ∃ def',
    expectedDefinition inserts w (Some def) = Some def' ∧
    (def ≠ [] → def' ≠ []).
Proof.
  induction inserts as [|[x d] rest IH]; intros def; simpl; [by exists def|].
  destruct (decide (toLowerCase x = w)); [|apply IH].
  destruct (IH (if truthy d then d else def)) as (def' & Hdef' & Hne).
  exists def'. split; [done|]. intros Hdef. apply Hne.
  destruct d; simpl; done.
Qed.

End dictionary_extras.

(** X1. [searchWord] of a string whose lower case was never inserted
    answers [{ found: false, definition: "" }], also when the string is the
    beginning of stored words: the nodes on the way to a word carry no
    definition of their own. *)
Theorem lookup_absent `{Builtins}
    (inserts : list (jsstring * jsstring)) (w : jsstring) :
  toLowerCase w ∉ normalizedWords inserts →
  ∃ d,
    insertAll inserts newWordDictionary = Normal d ∧
    searchWord d w = Normal (Lookup.mk false []).
Proof.
  intros Hnew. destruct (built inserts) as (d & Hd & Hc & Ht & Hwords).
  exists d. split; [done|]. rewrite (searchWord_lookupOf d w Ht).
  destruct (entry _ _) as [def|] eqn:Hentry; [|done].
  destruct Hnew. apply Hwords, (consistent_entry d _ Hc). eauto.
Qed.

Lemma lookup_absent_witness :
  (toLowerCase (Builtins := asciiHost) (lit "Ap") ∉
     normalizedWords (H := asciiHost) scenarioInserts) ∧
  ∃ d,
    insertAll (H := asciiHost) scenarioInserts newWordDictionary = Normal d ∧
    searchWord (H := asciiHost) d (lit "Ap") = Normal (Lookup.mk false []).
Proof.
  split; [by_evaluation|].
  apply (lookup_absent (H := asciiHost) scenarioInserts (lit "Ap")).
  by_evaluation.
Defined.

(** X2. A call of [insertWord] changes the answer of [searchWord] for no
    word other than the one inserted (compared in lower case). *)
Theorem insert_keeps_other_words `{Builtins}
    (inserts : list (jsstring * jsstring)) (w def w' : jsstring) :
  toLowerCase w' ≠ toLowerCase w →
  ∃ d d',
    insertAll inserts newWordDictionary = Normal d ∧
    insertWord d w def = Normal d' ∧
    searchWord d' w' = searchWord d w'.
Proof.
  intros Hother. destruct (built inserts) as (d & Hd & Hc & Ht & _).
  destruct (insertWord_step d w def Hc) as (d' & Hd' & Hc' & _ & He & _).
  exists d, d'. split; [done|]. split; [done|].
  rewrite (searchWord_lookupOf d' w'), (searchWord_lookupOf d w' Ht).
  - rewrite He, decide_False; [done|]. by intros ?%codePoints_inj.
  - by apply (insertWord_tidy d w def d' Hc Ht).
Qed.

Lemma insert_keeps_other_words_witness :
  toLowerCase (Builtins := asciiHost) (lit "app") ≠
    toLowerCase (Builtins := asciiHost) (lit "APPLE") ∧
  ∃ d d',
    insertAll (H := asciiHost) scenarioInserts newWordDictionary = Normal d ∧
    insertWord (H := asciiHost) d (lit "APPLE") (lit "a tree") = Normal d' ∧
    searchWord (H := asciiHost) d' (lit "app") =
      searchWord (H := asciiHost) d (lit "app").
Proof.
  split; [by_evaluation|].
  apply (insert_keeps_other_words (H := asciiHost) scenarioInserts
           (lit "APPLE") (lit "a tree") (lit "app")).
  by_evaluation.
Defined.

(** X3. [insertWord] is idempotent: a second call with the same word and
    definition returns the dictionary of the first call unchanged. *)
Theorem insert_idempotent `{Builtins}
    (inserts : list (jsstring * jsstring)) (w def : jsstring) :
  ∃ d d1,
    insertAll inserts newWordDictionary = Normal d ∧
    insertWord d w def = Normal d1 ∧
    insertWord d1 w def = Normal d1.
Proof.
  destruct (built inserts) as (d & Hd & Hc & _).
  destruct (insertWord_step d w def Hc) as (d1 & Hd1 & Hc1 & Hl1 & He1 & _).
  exists d, d1. split; [done|]. split; [done|].
  assert (toLowerCase w ∈ wordList d1) as Hin.
  { rewrite Hl1. destruct (decide (_ ∈ wordList d)); [done|].
    apply elem_of_app. right. apply list_elem_of_here. }
  rewrite <- (consistent_set d1 Hc1) in Hin.
  unfold insertWord. rewrite (proj2 (Set_has_true _ _) Hin).
  destruct (truthy def) eqn:Hdef; [|done].
  rewrite (updateDefinition_same _ def (root d1)); [by destruct d1|].
  rewrite He1, decide_True by done. f_equal.
  destruct (entry (root d) _); [|done]. unfold or_else. by rewrite Hdef.
Qed.

(** X4. No call of [insertWord] removes a word: after further inserts
    [wordList] still begins with the words it had, every word that
    [searchWord] found is still found, and a definition that was not empty
    is not empty afterwards. *)
Theorem words_persist `{Builtins}
    (before after : list (jsstring * jsstring)) :
  ∃ d0 d2,
    insertAll before newWordDictionary = Normal d0 ∧
    insertAll after d0 = Normal d2 ∧
    wordList d0 `prefix_of` wordList d2 ∧
    (∀ w def,
       searchWord d0 w = Normal (Lookup.mk true def) →
       ∃ def', searchWord d2 w = Normal (Lookup.mk true def') ∧
               (def ≠ [] → def' ≠ [])).
Proof.
  destruct (built before) as (d0 & Hd0 & Hc0 & Ht0 & _).
  destruct (insertAll_spec after d0 Hc0) as (d2 & Hd2 & Hc2 & Hl2 & He2).
  pose proof (insertAll_tidy after d0 d2 Hc0 Ht0 Hd2) as Ht2.
  exists d0, d2. split; [done|]. split; [done|]. split.
  - rewrite Hl2. by eexists.
  - intros w def. rewrite (searchWord_lookupOf d0 w Ht0).
    intros [= Hfound%lookupOf_found].
    destruct (expectedDefinition_keeps after (toLowerCase w) def)
      as (def' & Hdef' & Hne).
    exists def'. split; [|done].
    by rewrite (searchWord_lookupOf d2 w Ht2), He2, Hfound, Hdef'.
Qed.

(** X5. Asked for no suggestion, or for a negative number of them,
    [getAutoSuggestions] returns the empty sequence, whatever the dictionary
    and the prefix. *)
Theorem suggestions_none_asked `{Builtins}
    (d : WordDictionary) (prefix : jsstring) (maxSuggestions : Z) :
  maxSuggestions ≤ 0 →
  getAutoSuggestions d prefix maxSuggestions = Normal [].
Proof.
  intros Hmax. unfold getAutoSuggestions. rewrite descend_nodeAt. simpl.
  destruct (nodeAt _ _) as [sub|]; [|done].
  rewrite dfs_terminals.
  replace (budget (maxSuggestions * 3) []) with 0%nat
    by (unfold budget; simpl; lia).
  rewrite take_0. simpl. unfold Array_slice0.
  change (Array_from_Set []) with (@nil jsstring).
  destruct (maxSuggestions <? 0); by rewrite take_nil.
Qed.

Lemma suggestions_none_asked_witness :
  -1 ≤ 0 ∧
  getAutoSuggestions (H := asciiHost) scenarioDictionary (lit "app") (-1) =
    Normal [].
Proof.
  split; [lia|].
  apply (suggestions_none_asked (H := asciiHost) scenarioDictionary
           (lit "app") (-1)).
  lia.
Defined.

(** X6. Asking [getAutoSuggestions] for more suggestions only adds words at
    the end: the answer for a smaller number is the beginning of the answer
    for a larger one. *)
Theorem suggestions_grow `{Builtins}
    (inserts : list (jsstring * jsstring)) (prefix : jsstring) (m1 m2 : Z) :
  0 ≤ m1 → m1 ≤ m2 →
  ∃ d r1 r2,
    insertAll inserts newWordDictionary = Normal d ∧
    getAutoSuggestions d prefix m1 = Normal r1 ∧
    getAutoSuggestions d prefix m2 = Normal r2 ∧
    r1 `prefix_of` r2.
Proof.
  intros H1 H2. destruct (built inserts) as (d & Hd & Hc & _).
  eexists d, _, _. split; [done|].
  split; [by apply getAutoSuggestions_spec|].
  split; [apply getAutoSuggestions_spec; [done|lia]|].
  set (T := subtreeWords d (toLowerCase prefix)).
  replace (take (Z.to_nat m1) T)
    with (take (Z.to_nat m1) (take (Z.to_nat m2) T))
    by (rewrite take_take; f_equal; lia).
  exists (drop (Z.to_nat m1) (take (Z.to_nat m2) T)).
  by rewrite take_drop.
Qed.

Lemma suggestions_grow_witness :
  0 ≤ 1 ∧ 1 ≤ 2 ∧
  ∃ d r1 r2,
    insertAll (H := asciiHost) scenarioInserts newWordDictionary = Normal d ∧
    getAutoSuggestions (H := asciiHost) d (lit "a") 1 = Normal r1 ∧
    getAutoSuggestions (H := asciiHost) d (lit "a") 2 = Normal r2 ∧
    r1 `prefix_of` r2.
Proof.
  split; [lia|]. split; [lia|].
  apply (suggestions_grow (H := asciiHost) scenarioInserts (lit "a") 1 2); lia.
Defined.

(** X7. When [maxSuggestions] is at least the number of stored words that
    begin with the characters of the lower-cased prefix,
    [getAutoSuggestions] returns all of them and nothing else. *)
Theorem suggestions_complete `{Builtins}
    (inserts : list (jsstring * jsstring)) (prefix : jsstring)
    (maxSuggestions : Z) :
  0 ≤ maxSuggestions →
  ∃ d r,
    insertAll inserts newWordDictionary = Normal d ∧
    getAutoSuggestions d prefix maxSuggestions = Normal r ∧
    (Z.of_nat (length (completions d (toLowerCase prefix))) ≤ maxSuggestions →
     ∀ w, w ∈ r ↔
          w ∈ wordList d ∧
          codePoints (toLowerCase prefix) `prefix_of` codePoints w).
Proof.
  intros Hmax. destruct (built inserts) as (d & Hd & Hc & _).
  eexists d, _. split; [done|].
  split; [by apply getAutoSuggestions_spec|].
  intros Hall w. rewrite take_ge.
  - by apply elem_of_subtreeWords.
  - rewrite (subtreeWords_completions d _ Hc). lia.
Qed.

Lemma suggestions_complete_witness :
  0 ≤ 10 ∧
  ∃ d r,
    insertAll (H := asciiHost) scenarioInserts newWordDictionary = Normal d ∧
    getAutoSuggestions (H := asciiHost) d (lit "app") 10 = Normal r ∧
    (Z.of_nat (length (completions d
        (toLowerCase (Builtins := asciiHost) (lit "app")))) ≤ 10 →
     ∀ w, w ∈ r ↔
          w ∈ wordList d ∧
          codePoints (toLowerCase (Builtins := asciiHost) (lit "app"))
            `prefix_of` codePoints w).
Proof.
  split; [lia|].
  apply (suggestions_complete (H := asciiHost) scenarioInserts (lit "app") 10).
  lia.
Defined.

(** X8. When the lower-cased prefix is itself a stored word, it is the
    first suggestion of [getAutoSuggestions], for every positive
    [maxSuggestions]. *)
Theorem suggestions_word_first `{Builtins}
    (inserts : list (jsstring * jsstring)) (prefix : jsstring)
    (maxSuggestions : Z) :
  0 < maxSuggestions →
  toLowerCase prefix ∈ normalizedWords inserts →
  ∃ d rest,
    insertAll inserts newWordDictionary = Normal d ∧
    getAutoSuggestions d prefix maxSuggestions =
      Normal (toLowerCase prefix :: rest).
Proof.
  intros Hmax Hin. destruct (built inserts) as (d & Hd & Hc & _ & Hwords).
  assert (is_Some (entry (root d) (codePoints (toLowerCase prefix))))
    as [def Hdef] by (by apply (consistent_entry d _ Hc), Hwords).
  unfold entry in Hdef.
  destruct (nodeAt _ _) as [sub|] eqn:Hsub; [|done].
  destruct (isEndOfWord sub) eqn:Hend; [|done].
  eexists d, _. split; [done|].
  rewrite getAutoSuggestions_spec by (done || lia).
  unfold subtreeWords. rewrite Hsub, terminals_unfold, Hend.
  replace (Z.to_nat maxSuggestions)
    with (S (Z.to_nat maxSuggestions - 1)) by lia.
  reflexivity.
Qed.

Lemma suggestions_word_first_witness :
  0 < 2 ∧
  toLowerCase (Builtins := asciiHost) (lit "App") ∈
    normalizedWords (H := asciiHost) scenarioInserts ∧
  ∃ d rest,
    insertAll (H := asciiHost) scenarioInserts newWordDictionary = Normal d ∧
    getAutoSuggestions (H := asciiHost) d (lit "App") 2 =
      Normal (toLowerCase (Builtins := asciiHost) (lit "App") :: rest).
Proof.
  split; [lia|]. split; [by_evaluation|].
  apply (suggestions_word_first (H := asciiHost) scenarioInserts (lit "App") 2);
    [lia | by_evaluation].
Defined.

(** ** The distance is a metric *)

Lemma lev_bounds a :
  ∀ b, Z.abs (Z.of_nat (length a) - Z.of_nat (length b)) ≤ lev a b ∧
       lev a b ≤ Z.max (Z.of_nat (length a)) (Z.of_nat (length b)).
Proof.
  induction a as [|x a IHa]; intros b.
  - simpl. lia.
  - induction b as [|y b IHb]; [simpl; lia|].
    rewrite lev_cons. pose proof (IHa b). pose proof (IHa (y :: b)).
    simpl length in *. destruct (decide (x = y)); lia.
Qed.

Lemma lev_zero a : ∀ b, lev a b = 0 → a = b.
Proof.
  induction a as [|x a IHa]; intros [|y b]; try done.
  rewrite lev_cons.
  pose proof (lev_bounds a (y :: b)). pose proof (lev_bounds (x :: a) b).
  pose proof (lev_bounds a b).
  destruct (decide (x = y)) as [->|Hne]; [|lia].
  by intros ->%IHa.
Qed.

(** One more letter on either side moves the distance by at most one. *)
Lemma lev_step n :
  ∀ a b x, (length a + length b ≤ n)%nat →
    lev (x :: a) b ≤ 1 + lev a b ∧ lev a b ≤ 1 + lev (x :: a) b.
Proof.
  induction n as [|n IH]; intros a b x Hlen.
  - destruct a, b; simpl in Hlen; try lia. simpl. lia.
  - destruct b as [|y b].
    + rewrite !lev_nil_r. simpl. lia.
    + rewrite lev_cons. simpl in Hlen.
      destruct (IH b a y ltac:(lia)) as [Hu Hd].
      destruct (IH a b x ltac:(lia)) as [_ Hd'].
      rewrite (lev_sym (y :: b) a), (lev_sym b a) in Hu.
      rewrite (lev_sym (y :: b) a), (lev_sym b a) in Hd.
      destruct (decide (x = y)) as [->|Hne]; lia.
Qed.

Lemma lev_cons_l x a b : lev (x :: a) b ≤ 1 + lev a b.
Proof. by apply (lev_step (length a + length b)). Qed.

Lemma lev_cons_r y a b : lev a (y :: b) ≤ 1 + lev a b.
Proof. rewrite (lev_sym a (y :: b)), (lev_sym a b). apply lev_cons_l. Qed.

Lemma lev_cons_both x y a b : lev (x :: a) (y :: b) ≤ 1 + lev a b.
Proof.
  rewrite lev_cons. pose proof (lev_bounds a b).
  destruct (decide (x = y)); lia.
Qed.

Lemma lev_triangle n :
  ∀ a b c, (length a + length b + length c ≤ n)%nat →
    lev a c ≤ lev a b + lev b c.
Proof.
  induction n as [|n IH]; intros a b c Hlen.
  - destruct a, b, c; simpl in Hlen; try lia. simpl. lia.
  - pose proof (lev_bounds a b). pose proof (lev_bounds b c).
    pose proof (lev_bounds a c).
    destruct a as [|x a]; [simpl in *; lia|].
    destruct c as [|z c]; [rewrite !lev_nil_r in *; simpl in *; lia|].
    destruct b as [|y b]; [rewrite !lev_nil_r in *; simpl in *; lia|].
    simpl in Hlen.
    pose proof (IH a b c ltac:(lia)).
    pose proof (IH a (y :: b) (z :: c) ltac:(simpl; lia)).
    pose proof (IH (x :: a) (y :: b) c ltac:(simpl; lia)).
    pose proof (IH (x :: a) b (z :: c) ltac:(simpl; lia)).
    pose proof (IH a b (z :: c) ltac:(simpl; lia)).
    pose proof (IH (x :: a) b c ltac:(simpl; lia)).
    pose proof (lev_cons_l x a (z :: c)).
    pose proof (lev_cons_r z (x :: a) c).
    pose proof (lev_cons_both x z a c).
    pose proof (lev_cons x a y b) as Hab.
    pose proof (lev_cons y b z c) as Hbc.
    pose proof (lev_cons x a z c) as Hac.
    repeat case_decide; subst; lia.
Qed.

(** X9. [editDistance(a, b)] is 0 exactly when [a] and [b] are the same
    string. *)
Theorem editDistance_zero_iff (a b : jsstring) :
  editDistance a b = Normal 0 ↔ a = b.
Proof.
  split.
  - rewrite editDistance_lev. intros [= Hzero].
    apply lev_zero in Hzero. by apply (inj reverse).
  - intros ->. apply editDistance_same.
Qed.

(** X10. [editDistance(a, b)] is at least the difference of the lengths of
    [a] and [b] and at most the larger of the two lengths. *)
Theorem editDistance_bounds (a b : jsstring) :
  ∃ k, editDistance a b = Normal k ∧
       Z.abs (Z.of_nat (length a) - Z.of_nat (length b)) ≤ k ∧
       k ≤ Z.max (Z.of_nat (length a)) (Z.of_nat (length b)).
Proof.
  rewrite editDistance_lev. eexists. split; [done|].
  pose proof (lev_bounds (reverse a) (reverse b)) as Hb.
  by rewrite !length_reverse in Hb.
Qed.

(** X11. [editDistance] satisfies the triangle inequality: going from [a]
    to [c] costs no more than going through any [b]. *)
Theorem editDistance_triangle (a b c : jsstring) :
  ∃ ab bc ac,
    editDistance a b = Normal ab ∧
    editDistance b c = Normal bc ∧
    editDistance a c = Normal ac ∧
    ac ≤ ab + bc.
Proof.
  rewrite !editDistance_lev. eexists _, _, _.
  split; [done|]. split; [done|]. split; [done|].
  by apply (lev_triangle
              (length (reverse a) + length (reverse b) + length (reverse c))).
Qed.

(** ** More on corrections *)

Lemma isNear_candidateOf lw maxDistance w :
  isNear lw maxDistance w = true ↔ is_Some (candidateOf lw maxDistance w).
Proof.
  unfold isNear, candidateOf. rewrite editDistance_lev.
  destruct (_ && _); split; eauto; try done.
Qed.

Lemma isNear_distance lw maxDistance w :
  isNear lw maxDistance w = true ↔
    ∃ k, editDistance lw w = Normal k ∧ 0 < k ≤ maxDistance.
Proof.
  unfold isNear. rewrite editDistance_lev. split.
  - intros [Hpos%Z.gtb_gt Hle%Z.leb_le]%andb_prop. eexists. split; [done|lia].
  - intros (k & [= <-] & Hk). apply andb_true_intro.
    split; [apply Z.gtb_gt | apply Z.leb_le]; lia.
Qed.

Lemma candidates_words lw maxDistance (words : list jsstring) :
  Candidate.word <$> omap (candidateOf lw maxDistance) words =
    filter (λ w, isNear lw maxDistance w = true) words.
Proof.
  induction words as [|w words IH]; [done|]. csimpl.
  rewrite filter_cons.
  destruct (candidateOf lw maxDistance w) as [c|] eqn:Hc.
  - rewrite decide_True by (apply isNear_candidateOf; eauto).
    apply candidateOf_Some in Hc as (Hw & _). csimpl. by rewrite Hw, IH.
  - rewrite decide_False; [done|].
    rewrite isNear_candidateOf, Hc. by intros [? ?].
Qed.

Lemma candidate_facts lw maxDistance (words : list jsstring) c :
  c ∈ omap (candidateOf lw maxDistance) words →
  Candidate.word c ∈ words ∧
  editDistance lw (Candidate.word c) = Normal (Candidate.distance c) ∧
  0 < Candidate.distance c ≤ maxDistance.
Proof.
  intros (w & Hw & Hc)%list_elem_of_omap.
  apply candidateOf_Some in Hc as (<- & Hdist & Hrange).
  split; [done|]. split; [|done]. by rewrite editDistance_lev, Hdist.
Qed.

Section corrections_extras.
Context `{Builtins}.

(** With a limit that is not positive the loop stops after its first
    candidate. *)
Lemma uniqueLoop_first candidates maxSuggestions :
  maxSuggestions ≤ 0 →
  uniqueLoop candidates [] [] maxSuggestions = take 1 candidates.
Proof.
  intros Hmax. destruct candidates as [|c rest]; [done|]. simpl.
  replace (Z.of_nat 1 >=? maxSuggestions) with true; [by rewrite take_0|].
  symmetry. rewrite Z.geb_leb. apply Z.leb_le. lia.
Qed.

Lemma elem_of_uniqueLoop maxSuggestions candidates :
  ∀ seen unique c,
    c ∈ uniqueLoop candidates seen unique maxSuggestions →
    c ∈ unique ∨ c ∈ candidates.
Proof.
  induction candidates as [|x rest IH]; intros seen unique c; simpl; [auto|].
  assert (c ∈ unique ++ [x] → c ∈ unique ∨ c ∈ x :: rest) as Hpush.
  { rewrite elem_of_app, list_elem_of_singleton, elem_of_cons. tauto. }
  destruct (negb _).
  - destruct (_ >=? _); [done|].
    intros [?|?]%IH; [auto|]. right. by apply list_elem_of_further.
  - intros [?|?]%IH; [auto|]. right. by apply list_elem_of_further.
Qed.

(** Every word returned is a stored word that passes the test. *)
Lemma getSpellingCorrections_near d word maxDistance maxSuggestions r :
  getSpellingCorrections d word maxDistance maxSuggestions = Normal r →
  ∀ w, w ∈ r → w ∈ nearWords d (toLowerCase word) maxDistance.
Proof.
  unfold getSpellingCorrections. rewrite scanCandidates_spec. simpl.
  intros [= <-] w (c & -> & Hc)%list_elem_of_fmap.
  apply elem_of_uniqueLoop in Hc as [?%elem_of_nil|Hc]; [done|].
  rewrite Array_sort_Permutation in Hc.
  unfold nearWords. rewrite <- candidates_words.
  apply list_elem_of_fmap. eauto.
Qed.

End corrections_extras.

(** X12. With a [maxDistance] that is not positive
    [getSpellingCorrections] returns the empty sequence, whatever the
    dictionary, the word and [maxSuggestions]. *)
Theorem corrections_no_distance `{Builtins}
    (d : WordDictionary) (word : jsstring) (maxDistance maxSuggestions : Z) :
  maxDistance ≤ 0 →
  getSpellingCorrections d word maxDistance maxSuggestions = Normal [].
Proof.
  intros Hmax. unfold getSpellingCorrections.
  rewrite scanCandidates_spec. simpl.
  replace (omap (candidateOf (toLowerCase word) maxDistance) (wordList d))
    with (@nil Candidate.t); [done|].
  symmetry. induction (wordList d) as [|w words IH]; [done|]. csimpl.
  rewrite IH. unfold candidateOf.
  destruct (_ >? 0) eqn:Hpos; [|done]. apply Z.gtb_gt in Hpos.
  replace (_ <=? maxDistance) with false; [done|].
  symmetry. apply Z.leb_gt. lia.
Qed.

Lemma corrections_no_distance_witness :
  0 ≤ 0 ∧
  getSpellingCorrections (H := asciiHost) scenarioDictionary (lit "aple") 0 5 =
    Normal [].
Proof.
  split; [lia|].
  apply (corrections_no_distance (H := asciiHost) scenarioDictionary
           (lit "aple") 0 5).
  lia.
Defined.

(** X13. With a [maxSuggestions] that is not positive
    [getSpellingCorrections] still returns one word when a stored word
    passes the distance test: the limit is checked after the first
    candidate is kept.  It returns the empty sequence only when no stored
    word passes the test. *)
Theorem corrections_limit_not_positive `{Builtins}
    (d : WordDictionary) (word : jsstring) (maxDistance maxSuggestions : Z) :
  maxSuggestions ≤ 0 →
  ∃ r,
    getSpellingCorrections d word maxDistance maxSuggestions = Normal r ∧
    (length r ≤ 1)%nat ∧
    (r = [] ↔ nearWords d (toLowerCase word) maxDistance = []).
Proof.
  intros Hmax. unfold getSpellingCorrections.
  rewrite scanCandidates_spec. simpl. rewrite uniqueLoop_first by done.
  eexists. split; [done|].
  set (candidates := omap _ _).
  assert (Array_sort byDistanceThenWord candidates ≡ₚ candidates) as Hperm
    by apply Array_sort_Permutation.
  split.
  - change (map ?f ?l) with (f <$> l). rewrite length_fmap, length_take. lia.
  - unfold nearWords. rewrite <- candidates_words. fold candidates.
    destruct (Array_sort byDistanceThenWord candidates) as [|c sorted] eqn:Hs.
    + apply Permutation_nil_l in Hperm. by rewrite <- Hperm.
    + split; [done|]. intros Hnil.
      destruct candidates; [|done].
      by apply Permutation_nil_r in Hperm.
Qed.

Lemma corrections_limit_not_positive_witness :
  0 ≤ 0 ∧
  ∃ r,
    getSpellingCorrections (H := asciiHost) scenarioDictionary (lit "aple") 2 0 =
      Normal r ∧
    (length r ≤ 1)%nat ∧
    (r = [] ↔
     nearWords scenarioDictionary
       (toLowerCase (Builtins := asciiHost) (lit "aple")) 2 = []).
Proof.
  split; [lia|].
  apply (corrections_limit_not_positive (H := asciiHost) scenarioDictionary
           (lit "aple") 2 0).
  lia.
Defined.

(** X14. Every word returned by [getSpellingCorrections], for any
    [maxSuggestions], is a stored word that passes the distance test, and
    [searchWord] finds it. *)
Theorem corrections_stored `{Builtins}
    (inserts : list (jsstring * jsstring)) (word : jsstring)
    (maxDistance maxSuggestions : Z) :
  lower_idempotent →
  ∃ d r,
    insertAll inserts newWordDictionary = Normal d ∧
    getSpellingCorrections d word maxDistance maxSuggestions = Normal r ∧
    ∀ w, w ∈ r →
      w ∈ nearWords d (toLowerCase word) maxDistance ∧
      ∃ def, searchWord d w = Normal (Lookup.mk true def).
Proof.
  intros Hidem. destruct (built inserts) as (d & Hd & Hc & _).
  destruct (getSpellingCorrections d word maxDistance maxSuggestions)
    as [r|e] eqn:Hr.
  2: { unfold getSpellingCorrections in Hr.
       by rewrite scanCandidates_spec in Hr. }
  exists d, r. split; [done|]. split; [done|]. intros w Hw.
  pose proof (getSpellingCorrections_near d word _ _ r Hr w Hw) as Hnear.
  split; [done|].
  apply list_elem_of_filter in Hnear as [_ Hstored].
  destruct (consistent_lower d Hc w Hstored) as [x ->].
  apply (consistent_entry d _ Hc) in Hstored as [def Hdef].
  exists def. apply searchWord_found. by rewrite Hidem.
Qed.

Lemma corrections_stored_witness :
  @lower_idempotent asciiHost ∧
  ∃ d r,
    insertAll (H := asciiHost) scenarioInserts newWordDictionary = Normal d ∧
    getSpellingCorrections (H := asciiHost) d (lit "Aple") 2 0 = Normal r ∧
    ∀ w, w ∈ r →
      w ∈ nearWords d (toLowerCase (Builtins := asciiHost) (lit "Aple")) 2 ∧
      ∃ def, searchWord (H := asciiHost) d w = Normal (Lookup.mk true def).
Proof.
  split; [exact asciiHost_lower_idempotent|].
  apply (corrections_stored (H := asciiHost) scenarioInserts (lit "Aple") 2 0).
  exact asciiHost_lower_idempotent.
Defined.

(** X15. For a positive [maxSuggestions], [getSpellingCorrections] returns
    min(maxSuggestions, N) words, N being the number of stored words that
    pass the distance test; when N is at most [maxSuggestions] it returns
    every one of them. *)
Theorem corrections_count `{Builtins}
    (inserts : list (jsstring * jsstring)) (word : jsstring)
    (maxDistance maxSuggestions : Z) :
  0 < maxSuggestions →
  ∃ d r,
    insertAll inserts newWordDictionary = Normal d ∧
    getSpellingCorrections d word maxDistance maxSuggestions = Normal r ∧
    Z.of_nat (length r) =
      Z.min maxSuggestions
        (Z.of_nat (length (nearWords d (toLowerCase word) maxDistance))) ∧
    (Z.of_nat (length (nearWords d (toLowerCase word) maxDistance))
       ≤ maxSuggestions →
     ∀ w, w ∈ r ↔ w ∈ nearWords d (toLowerCase word) maxDistance).
Proof.
  intros Hmax. destruct (built inserts) as (d & Hd & Hc & _).
  eexists d, _. split; [done|].
  split; [apply getSpellingCorrections_spec; [apply (consistent_once d Hc)|done]|].
  set (candidates := omap _ _).
  assert (Array_sort byDistanceThenWord candidates ≡ₚ candidates) as Hperm
    by apply Array_sort_Permutation.
  assert (length (nearWords d (toLowerCase word) maxDistance) =
          length candidates) as Hlen.
  { unfold nearWords. rewrite <- candidates_words. apply length_fmap. }
  split.
  - rewrite length_fmap, length_take, Hperm, Hlen. lia.
  - intros Hall w. rewrite take_ge by (rewrite Hperm; lia).
    rewrite Hperm. unfold nearWords. by rewrite <- candidates_words.
Qed.

Lemma corrections_count_witness :
  0 < 2 ∧
  ∃ d r,
    insertAll (H := asciiHost) scenarioInserts newWordDictionary = Normal d ∧
    getSpellingCorrections (H := asciiHost) d (lit "aple") 2 2 = Normal r ∧
    Z.of_nat (length r) =
      Z.min 2
        (Z.of_nat (length (nearWords d
           (toLowerCase (Builtins := asciiHost) (lit "aple")) 2))) ∧
    (Z.of_nat (length (nearWords d
        (toLowerCase (Builtins := asciiHost) (lit "aple")) 2)) ≤ 2 →
     ∀ w, w ∈ r ↔
          w ∈ nearWords d (toLowerCase (Builtins := asciiHost) (lit "aple")) 2).
Proof.
  split; [lia|].
  apply (corrections_count (H := asciiHost) scenarioInserts (lit "aple") 2 2).
  lia.
Defined.

(** X16. When [getSpellingCorrections] cuts the list at [maxSuggestions],
    it keeps the best: every word returned ranks before every stored word
    that passes the distance test and is not returned (smaller distance, or
    the same distance and not after it by [localeCompare]). *)
Theorem corrections_best_kept `{Builtins}
    (inserts : list (jsstring * jsstring)) (word : jsstring)
    (maxDistance maxSuggestions : Z) :
  compare_consistent →
  0 < maxSuggestions →
  ∃ d r,
    insertAll inserts newWordDictionary = Normal d ∧
    getSpellingCorrections d word maxDistance maxSuggestions = Normal r ∧
    ∀ w w',
      w ∈ r →
      w' ∈ nearWords d (toLowerCase word) maxDistance →
      w' ∉ r →
      rankedBefore (toLowerCase word) w w'.
Proof.
  intros Hcmp Hmax. destruct (built inserts) as (d & Hd & Hc & _).
  eexists d, _. split; [done|].
  split; [apply getSpellingCorrections_spec; [apply (consistent_once d Hc)|done]|].
  set (candidates := omap _ _).
  set (sorted := Array_sort byDistanceThenWord candidates).
  assert (sorted ≡ₚ candidates) as Hperm by apply Array_sort_Permutation.
  assert (StronglySorted (notAfter byDistanceThenWord) sorted) as Hsorted.
  { apply Array_sort_sorted;
      [apply (byDistanceThenWord_total Hcmp)
      |apply (byDistanceThenWord_transitive Hcmp)]. }
  rewrite <- (take_drop (Z.to_nat maxSuggestions) sorted) in Hsorted.
  intros w w' (c & -> & Hc1)%list_elem_of_fmap Hnear Hout.
  unfold nearWords in Hnear. rewrite <- candidates_words in Hnear.
  fold candidates in Hnear.
  apply list_elem_of_fmap in Hnear as (c' & -> & Hc').
  assert (c' ∈ drop (Z.to_nat maxSuggestions) sorted) as Hc2.
  { rewrite <- Hperm, <- (take_drop (Z.to_nat maxSuggestions) sorted) in Hc'.
    apply elem_of_app in Hc' as [Hin|Hin]; [|done].
    destruct Hout. apply list_elem_of_fmap. eauto. }
  pose proof (StronglySorted_app_1_elem_of _ _ _ _ _ Hsorted Hc1 Hc2) as Hrank.
  apply byDistanceThenWord_notAfter in Hrank.
  apply (subseteq_take _ _ c) in Hc1. apply (subseteq_drop _ _ c') in Hc2.
  rewrite Hperm in Hc1, Hc2.
  apply candidate_facts in Hc1 as (_ & Hd1 & _).
  apply candidate_facts in Hc2 as (_ & Hd2 & _).
  by exists (Candidate.distance c), (Candidate.distance c').
Qed.

Lemma corrections_best_kept_witness :
  @compare_consistent asciiHost ∧ 0 < 1 ∧
  ∃ d r,
    insertAll (H := asciiHost) scenarioInserts newWordDictionary = Normal d ∧
    getSpellingCorrections (H := asciiHost) d (lit "aple") 2 1 = Normal r ∧
    ∀ w w',
      w ∈ r →
      w' ∈ nearWords d (toLowerCase (Builtins := asciiHost) (lit "aple")) 2 →
      w' ∉ r →
      rankedBefore (H := asciiHost)
        (toLowerCase (Builtins := asciiHost) (lit "aple")) w w'.
Proof.
  split; [exact asciiHost_compare_consistent|]. split; [lia|].
  apply (corrections_best_kept (H := asciiHost) scenarioInserts (lit "aple") 2 1).
  - exact asciiHost_compare_consistent.
  - lia.
Defined.

(** ** Loading *)

Section loading_lemmas.
Context `{Builtins}.

(** A loop whose body inserts the entry of each element, if it has one, is
    one [insertAll]; the counter grows by the number of entries. *)
Lemma forEach_inserts {A} (entryOf : A → option (jsstring * jsstring))
    (body : WordDictionary * Z → A → completion (WordDictionary * Z)) :
  (∀ state x,
     body state x =
       match entryOf x with
       | Some (w, def) =>
           let! d' := insertWord (fst state) w def in
           Normal (d', snd state + 1)
       | None => Normal state
       end) →
  ∀ l d total,
    forEach body l (d, total) =
      let! d' := insertAll (omap entryOf l) d in
      Normal (d', total + Z.of_nat (length (omap entryOf l))).
Proof.
  intros Hbody. induction l as [|x l IH]; intros d total; csimpl.
  - by rewrite Z.add_0_r.
  - rewrite Hbody. destruct (entryOf x) as [[w def]|]; simpl.
    + destruct (insertWord d w def) as [d1|e]; simpl; [|done].
      rewrite IH. destruct (insertAll _ d1); simpl; [|done].
      do 2 f_equal. lia.
    + apply IH.
Qed.

Lemma loadCsvRows_inserts data d :
  loadCsvRows data d =
    let! d' := insertAll (omap csvEntry data) d in
    Normal (d', Z.of_nat (length (omap csvEntry data))).
Proof.
  unfold loadCsvRows. rewrite (forEach_inserts csvEntry); [done|].
  intros state row. unfold csvRow, csvEntry.
  destruct (row !! 0%nat) as [field|]; simpl; [|done].
  by destruct (truthy (trim field)).
Qed.

Lemma loadApiItems_inserts data d :
  loadApiItems data d =
    let! d' := insertAll (omap apiEntry data) d in
    Normal (d', Z.of_nat (length (omap apiEntry data))).
Proof.
  unfold loadApiItems. rewrite (forEach_inserts apiEntry); [done|].
  intros state item. unfold apiItem, apiEntry.
  destruct (ApiItem.word item) as [field|]; simpl; [|done].
  destruct (truthy (trim field)); [|done].
  destruct (ApiItem.definition item) as [s|]; [|done].
  unfold or_else. by destruct s.
Qed.

Lemma csvEntry_apiOfRow row :
  (length row ≤ 2)%nat → apiEntry (apiOfRow row) = csvEntry row.
Proof.
  intros Hlen. destruct row as [|f [|g [|h row]]]; simpl in Hlen; try lia;
    unfold apiEntry, csvEntry; simpl; done.
Qed.

(** After a load from a consistent dictionary every entry loaded is found. *)
Lemma loaded_found entries d w def :
  consistent d → (w, def) ∈ entries →
  ∃ d', insertAll entries d = Normal d' ∧ consistent d' ∧
        wordList d' = wordList d ++ firstInsertions entries (wordList d) ∧
        ∃ defn, searchWord d' w = Normal (Lookup.mk true defn).
Proof.
  intros Hd Hin.
  destruct (insertAll_spec entries d Hd) as (d' & Hd' & Hc' & Hl' & He').
  exists d'. split; [done|]. split; [done|]. split; [done|].
  destruct (expectedDefinition_inserted entries w def Hin
              (entry (root d) (codePoints (toLowerCase w)))) as [defn Hdefn].
  exists defn. apply searchWord_found. by rewrite He'.
Qed.

Lemma length_firstInsertions entries :
  ∀ seen, (length (firstInsertions entries seen) ≤ length entries)%nat.
Proof.
  induction entries as [|[x def] rest IH]; intros seen; simpl; [done|].
  destruct (decide (_ ∈ seen)); simpl.
  - specialize (IH seen). lia.
  - specialize (IH (seen ++ [toLowerCase x])). lia.
Qed.

End loading_lemmas.

(** X17. After the loop of [loadFromCsvFile] over the parsed rows, run on a
    dictionary built by inserts, no call has thrown and the trimmed first
    field of every row is found by [searchWord], provided that field is not
    blank. *)
Theorem csv_words_found `{Builtins}
    (inserts : list (jsstring * jsstring)) (data : list (list jsstring))
    (row : list jsstring) (field : jsstring) :
  row ∈ data →
  row !! 0%nat = Some field →
  truthy (trim field) = true →
  ∃ d d' total defn,
    insertAll inserts newWordDictionary = Normal d ∧
    loadCsvRows data d = Normal (d', total) ∧
    searchWord d' (trim field) = Normal (Lookup.mk true defn).
Proof.
  intros Hrow Hfield Hword. destruct (built inserts) as (d & Hd & Hc & _).
  destruct (loaded_found (omap csvEntry data) d (trim field)
              (trim (Array_join (lit " ") (drop 1 row))) Hc)
    as (d' & Hd' & _ & _ & defn & Hdefn).
  { apply list_elem_of_omap. exists row. split; [done|].
    unfold csvEntry. by rewrite Hfield, Hword. }
  exists d, d', (Z.of_nat (length (omap csvEntry data))), defn.
  split; [done|]. split; [|done].
  by rewrite loadCsvRows_inserts, Hd'.
Qed.

Lemma csv_words_found_witness :
  [lit " Apple "; lit "a"; lit "fruit "] ∈ sampleRows ∧
  [lit " Apple "; lit "a"; lit "fruit "] !! 0%nat = Some (lit " Apple ") ∧
  truthy (trim (lit " Apple ")) = true ∧
  ∃ d d' total defn,
    insertAll (H := asciiHost) scenarioInserts newWordDictionary = Normal d ∧
    loadCsvRows (H := asciiHost) sampleRows d = Normal (d', total) ∧
    searchWord (H := asciiHost) d' (trim (lit " Apple ")) =
      Normal (Lookup.mk true defn).
Proof.
  split; [apply list_elem_of_here|]. split; [reflexivity|].
  split; [reflexivity|].
  apply (csv_words_found (H := asciiHost) scenarioInserts sampleRows
           [lit " Apple "; lit "a"; lit "fruit "] (lit " Apple ")).
  - apply list_elem_of_here.
  - reflexivity.
  - reflexivity.
Defined.

(** X18. A row that is empty, or whose first field is blank, is skipped by
    the loop of [loadFromCsvFile]: with or without it the loop ends in the
    same dictionary and the same count. *)
Theorem csv_blank_row_skipped `{Builtins}
    (data1 data2 : list (list jsstring)) (row : list jsstring)
    (d : WordDictionary) :
  (row = [] ∨ ∃ field rest, row = field :: rest ∧ trim field = []) →
  loadCsvRows (data1 ++ row :: data2) d = loadCsvRows (data1 ++ data2) d.
Proof.
  intros Hblank. rewrite !loadCsvRows_inserts.
  replace (omap csvEntry (data1 ++ row :: data2))
    with (omap csvEntry (data1 ++ data2)); [done|].
  rewrite !omap_app. f_equal. csimpl.
  replace (csvEntry row) with (@None (jsstring * jsstring)); [done|].
  destruct Hblank as [->|(field & rest & -> & Hfield)]; [done|].
  unfold csvEntry. simpl. by rewrite Hfield.
Qed.

Lemma csv_blank_row_skipped_witness :
  ([lit "  "; lit "lost"] = [] ∨
   ∃ field rest, [lit "  "; lit "lost"] = field :: rest ∧ trim field = []) ∧
  loadCsvRows (H := asciiHost)
    ([[lit "pear"]] ++ [lit "  "; lit "lost"] :: [[lit "plum"]])
    scenarioDictionary =
  loadCsvRows (H := asciiHost) ([[lit "pear"]] ++ [[lit "plum"]])
    scenarioDictionary.
Proof.
  assert ([lit "  "; lit "lost"] = [] ∨
          ∃ field rest,
            [lit "  "; lit "lost"] = field :: rest ∧ trim field = [])
    as Hblank.
  { right. exists (lit "  "), [lit "lost"]. split; reflexivity. }
  split; [exact Hblank|].
  apply (csv_blank_row_skipped (H := asciiHost) [[lit "pear"]] [[lit "plum"]]
           [lit "  "; lit "lost"] scenarioDictionary Hblank).
Defined.

(** X19. The count reported by the loop of [loadFromCsvFile] is a count of
    rows, not of words: it is at most the number of rows, and the number of
    stored words grows by at most that count (by less when a word comes
    twice or was there before). *)
Theorem csv_total_bounds `{Builtins}
    (inserts : list (jsstring * jsstring)) (data : list (list jsstring)) :
  ∃ d d' total,
    insertAll inserts newWordDictionary = Normal d ∧
    loadCsvRows data d = Normal (d', total) ∧
    0 ≤ total ≤ Z.of_nat (length data) ∧
    Z.of_nat (length (wordList d')) ≤ Z.of_nat (length (wordList d)) + total ∧
    wordList d `prefix_of` wordList d'.
Proof.
  destruct (built inserts) as (d & Hd & Hc & _).
  destruct (insertAll_spec (omap csvEntry data) d Hc)
    as (d' & Hd' & _ & Hl' & _).
  exists d, d', (Z.of_nat (length (omap csvEntry data))).
  split; [done|]. split; [by rewrite loadCsvRows_inserts, Hd'|].
  assert (length (omap csvEntry data) ≤ length data)%nat as Hlen.
  { clear. induction data as [|row data IH]; csimpl; [done|].
    destruct (csvEntry row); simpl; lia. }
  split; [lia|]. split.
  - rewrite Hl', length_app.
    pose proof (length_firstInsertions (omap csvEntry data) (wordList d)).
    lia.
  - rewrite Hl'. by eexists.
Qed.

(** X20. On rows of at most two fields the two loaders agree: the loop of
    [loadFromApi] over the items made of the first field as [word] and the
    second as [definition] ends as the loop of [loadFromCsvFile] over the
    rows, on any dictionary. *)
Theorem loaders_agree `{Builtins}
    (data : list (list jsstring)) (d : WordDictionary) :
  (∀ row, row ∈ data → (length row ≤ 2)%nat) →
  loadApiItems (apiOfRow <$> data) d = loadCsvRows data d.
Proof.
  intros Hrows. rewrite loadApiItems_inserts, loadCsvRows_inserts.
  replace (omap apiEntry (apiOfRow <$> data)) with (omap csvEntry data);
    [done|].
  induction data as [|row data IH]; [done|]. csimpl.
  rewrite csvEntry_apiOfRow by (apply Hrows, list_elem_of_here).
  rewrite IH; [done|].
  intros row' Hin. by apply Hrows, list_elem_of_further.
Qed.

Lemma loaders_agree_witness :
  (∀ row, row ∈ [[lit "pear"; lit " a fruit "]; [lit " Plum"]; []] →
          (length row ≤ 2)%nat) ∧
  loadApiItems (H := asciiHost)
    (apiOfRow <$> [[lit "pear"; lit " a fruit "]; [lit " Plum"]; []])
    scenarioDictionary =
  loadCsvRows (H := asciiHost)
    [[lit "pear"; lit " a fruit "]; [lit " Plum"]; []] scenarioDictionary.
Proof.
  assert (∀ row, row ∈ [[lit "pear"; lit " a fruit "]; [lit " Plum"]; []] →
                 (length row ≤ 2)%nat) as Hrows.
  { intros row Hin. rewrite !elem_of_cons in Hin.
    destruct Hin as [->|[->|[->|Hin]]]; [simpl; lia..|].
    by apply elem_of_nil in Hin. }
  split; [exact Hrows|].
  apply (loaders_agree (H := asciiHost)
           [[lit "pear"; lit " a fruit "]; [lit " Plum"]; []]
           scenarioDictionary Hrows).
Defined.

(** X21. After the loop of [loadFromApi] over the items, run on a
    dictionary built by inserts, no call has thrown and the trimmed [word]
    of every item is found by [searchWord], provided it is not blank; an
    item without [word] is passed over. *)
Theorem api_words_found `{Builtins}
    (inserts : list (jsstring * jsstring)) (data : list ApiItem.t)
    (item : ApiItem.t) (field : jsstring) :
  item ∈ data →
  ApiItem.word item = Some field →
  truthy (trim field) = true →
  ∃ d d' total defn,
    insertAll inserts newWordDictionary = Normal d ∧
    loadApiItems data d = Normal (d', total) ∧
    searchWord d' (trim field) = Normal (Lookup.mk true defn).
Proof.
  intros Hitem Hfield Hword. destruct (built inserts) as (d & Hd & Hc & _).
  destruct (loaded_found (omap apiEntry data) d (trim field)
              (trim (match ApiItem.definition item with
                     | Some s => s
                     | None => []
                     end)) Hc)
    as (d' & Hd' & _ & _ & defn & Hdefn).
  { apply list_elem_of_omap. exists item. split; [done|].
    unfold apiEntry. by rewrite Hfield, Hword. }
  exists d, d', (Z.of_nat (length (omap apiEntry data))), defn.
  split; [done|]. split; [|done].
  by rewrite loadApiItems_inserts, Hd'.
Qed.

Lemma api_words_found_witness :
  ApiItem.mk (Some (lit " Pear ")) None ∈
    [ApiItem.mk None (Some (lit "lost")); ApiItem.mk (Some (lit " Pear ")) None] ∧
  ApiItem.word (ApiItem.mk (Some (lit " Pear ")) None) = Some (lit " Pear ") ∧
  truthy (trim (lit " Pear ")) = true ∧
  ∃ d d' total defn,
    insertAll (H := asciiHost) scenarioInserts newWordDictionary = Normal d ∧
    loadApiItems (H := asciiHost)
      [ApiItem.mk None (Some (lit "lost")); ApiItem.mk (Some (lit " Pear ")) None]
      d = Normal (d', total) ∧
    searchWord (H := asciiHost) d' (trim (lit " Pear ")) =
      Normal (Lookup.mk true defn).
Proof.
  split; [apply list_elem_of_further, list_elem_of_here|].
  split; [reflexivity|]. split; [reflexivity|].
  apply (api_words_found (H := asciiHost) scenarioInserts
           [ApiItem.mk None (Some (lit "lost"));
            ApiItem.mk (Some (lit " Pear ")) None]
           (ApiItem.mk (Some (lit " Pear ")) None) (lit " Pear ")).
  - apply list_elem_of_further, list_elem_of_here.
  - reflexivity.
  - reflexivity.
Defined.

(** ** Trimming *)

Lemma trimStart_startsClean s : startsClean (trimStart s).
Proof.
  induction s as [|u s IH]; simpl; [done|].
  by destruct (isWhiteSpace u) eqn:Hu.
Qed.

Lemma trimStart_fixed s : startsClean s → trimStart s = s.
Proof. destruct s as [|u s]; simpl; [done|]. by intros ->. Qed.

Lemma trimStart_suffix s : ∃ ws, s = ws ++ trimStart s.
Proof.
  induction s as [|u s [ws IH]]; simpl; [by exists []|].
  destruct (isWhiteSpace u); [|by exists []].
  exists (u :: ws). simpl. by rewrite <- IH.
Qed.

Lemma startsClean_app_l a b : a ≠ [] → startsClean (a ++ b) → startsClean a.
Proof. by destruct a. Qed.

Lemma startsClean_app a b : a ≠ [] → startsClean a → startsClean (a ++ b).
Proof. by destruct a. Qed.

Lemma trim_clean s : clean (trim s).
Proof.
  unfold trim, trimEnd. set (t := trimStart s).
  pose proof (trimStart_startsClean s) as Ht. fold t in Ht.
  pose proof (trimStart_startsClean (reverse t)) as Hu.
  destruct (trimStart_suffix (reverse t)) as [ws Hws].
  set (u := trimStart (reverse t)) in *.
  split; [|by rewrite reverse_involutive].
  destruct (decide (u = [])) as [->|Hne]; [done|].
  apply (startsClean_app_l _ (reverse ws)).
  - intros Hnil. apply Hne. by rewrite <- (reverse_involutive u), Hnil.
  - by rewrite <- reverse_app, <- Hws, reverse_involutive.
Qed.

Lemma trim_fixed s : clean s → trim s = s.
Proof.
  intros [Hs Hr]. unfold trim, trimEnd.
  by rewrite (trimStart_fixed s Hs), (trimStart_fixed _ Hr), reverse_involutive.
Qed.

Lemma trim_idempotent s : trim (trim s) = trim s.
Proof. apply trim_fixed, trim_clean. Qed.

Lemma trim_lineFeed s : clean s → s ≠ [] → trim (s ++ lineFeed) = s.
Proof.
  intros [Hs Hr] Hne. unfold trim, trimEnd.
  rewrite (trimStart_fixed (s ++ lineFeed)) by by apply startsClean_app.
  rewrite reverse_app. simpl.
  by rewrite (trimStart_fixed _ Hr), reverse_involutive.
Qed.

Lemma Array_join_cons sep p rest :
  rest ≠ [] → Array_join sep (p :: rest) = p ++ sep ++ Array_join sep rest.
Proof. by destruct rest. Qed.

Lemma clean_join sep parts :
  Forall (λ p, clean p ∧ p ≠ []) parts → parts ≠ [] →
  clean (Array_join sep parts) ∧ Array_join sep parts ≠ [].
Proof.
  induction 1 as [|p rest [[Hp Hr] Hne] Hrest IH]; [done|]. intros _.
  destruct (decide (rest = [])) as [->|Hrest'].
  { simpl. by repeat split. }
  destruct (IH Hrest') as [[_ Hjr] Hjne].
  rewrite (Array_join_cons sep p rest Hrest'). split; [split|].
  - by apply startsClean_app.
  - rewrite !reverse_app, <- app_assoc. apply startsClean_app; [|done].
    intros Hnil. apply Hjne.
    by rewrite <- (reverse_involutive (Array_join sep rest)), Hnil.
  - by destruct p.
Qed.

(** ** The merge *)

Lemma fileContent_clean files i c :
  fileContent files i = Some c → clean c ∧ c ≠ [].
Proof.
  unfold fileContent. destruct (files (fileName i)) as [raw|]; [|done].
  destruct (truthy (trim raw)) eqn:Hraw; [|done].
  intros [= <-]. split; [apply trim_clean|]. by destruct (trim raw).
Qed.

(** The loop appends the content of each file followed by a line feed, and
    one warning for each missing file. *)
Lemma mergeLoop_spec files count :
  ∀ i st,
    forLoop i count (mergeStep files) st =
      Normal {| mergedContent :=
                  mergedContent st ++
                  concat ((λ c, c ++ lineFeed) <$>
                            omap (fileContent files) (seq i count));
                warned :=
                  warned st ++
                  ((λ k, lit "Skipping missing file: " ++ fileName k) <$>
                     filter (λ k, files (fileName k) = None) (seq i count)) |}.
Proof.
  induction count as [|count IH]; intros i [merged warnings].
  - simpl. by rewrite !app_nil_r.
  - simpl forLoop. unfold mergeStep at 1. simpl seq. csimpl.
    rewrite filter_cons. unfold fileContent at 1.
    destruct (files (fileName i)) as [raw|] eqn:Hfile.
    + rewrite decide_False by done.
      destruct (truthy (trim raw)); simpl; rewrite IH; simpl; [|done].
      by rewrite <- !app_assoc.
    + rewrite decide_True by done. simpl. rewrite IH. simpl.
      by rewrite <- !app_assoc.
Qed.

Lemma concat_lines parts :
  parts ≠ [] →
  concat ((λ c, c ++ lineFeed) <$> parts) = Array_join lineFeed parts ++ lineFeed.
Proof.
  induction parts as [|p rest IH]; [done|]. intros _.
  destruct (decide (rest = [])) as [->|Hrest]; [csimpl; by rewrite app_nil_r|].
  rewrite (Array_join_cons _ p rest Hrest), fmap_cons. cbn [concat].
  rewrite IH by done. by rewrite <- !app_assoc.
Qed.

(** X22. The merge script writes exactly the trimmed contents of the files
    A.csv to Z.csv that exist and are not blank, in that order, joined by
    single line feeds, with no white space at either end; and it warns once
    for each missing file, in order. *)
Theorem merge_output (files : jsstring → option jsstring) :
  mergeCsv files =
    Normal (Array_join lineFeed (omap (fileContent files) (seq 65 26)),
            (λ k, lit "Skipping missing file: " ++ fileName k) <$>
              filter (λ k, files (fileName k) = None) (seq 65 26)).
Proof.
  unfold mergeCsv, forUpTo. rewrite mergeLoop_spec.
  change (S 90 - 65)%nat with 26%nat.
  cbv beta iota delta [JS.bind mergedContent warned]. rewrite !app_nil_l.
  do 2 f_equal.
  set (parts := omap (fileContent files) (seq 65 26)).
  assert (Forall (λ p, clean p ∧ p ≠ []) parts) as Hparts.
  { apply Forall_forall. intros c (i & _ & Hc)%list_elem_of_omap.
    by apply (fileContent_clean files i). }
  destruct (decide (parts = [])) as [->|Hne]; [done|].
  rewrite concat_lines by done.
  destruct (clean_join lineFeed parts Hparts Hne) as [Hclean Hjoin].
  by apply trim_lineFeed.
Qed.

(** ** The order of the suggestions *)

Lemma elem_of_terminalPaths_cons kids e def k q :
  k :: q ∈ terminalPaths (mkTrieNode kids e def) →
  ∃ c, (k, c) ∈ kids ∧ q ∈ terminalPaths c.
Proof.
  rewrite terminalPaths_unfold. simpl.
  intros [Hin|Hin]%elem_of_app.
  - destruct e; [|by apply elem_of_nil in Hin].
    by apply list_elem_of_singleton in Hin.
  - apply elem_of_flat_map in Hin as ([k' c] & Hkid & Hin). simpl in Hin.
    as_fmap in Hin. apply list_elem_of_fmap in Hin as (q' & Heq & Hq').
    injection Heq as -> ->. by exists c.
Qed.

(** In the walk a terminal path comes before the terminal paths that
    extend it. *)
Lemma terminalPaths_order node :
  uniqueKeys node →
  ∀ q1 q2,
    q1 ∈ terminalPaths node → q2 ∈ terminalPaths node →
    q1 ≠ q2 → q1 `prefix_of` q2 →
    ∃ l1 l2 l3, terminalPaths node = l1 ++ q1 :: l2 ++ q2 :: l3.
Proof.
  induction node as [kids e def IH] using TrieNode_induction.
  intros Huk q1 q2 H1 H2 Hne [ext ->].
  pose proof Huk as [Hnd Hall]%uniqueKeys_inv. simpl in Hnd, Hall.
  destruct q1 as [|k q1].
  - rewrite terminalPaths_unfold in H1, H2 |- *.
    cbn [app children isEndOfWord] in H1, H2, Hne |- *.
    apply elem_of_app in H1 as [H1|H1].
    2: { apply elem_of_flat_map in H1 as ([k c] & _ & H1). simpl in H1.
         as_fmap in H1. by apply list_elem_of_fmap in H1 as (? & ? & _). }
    destruct e; [|by apply elem_of_nil in H1].
    apply elem_of_app in H2 as [H2|H2].
    { by apply list_elem_of_singleton in H2. }
    apply list_elem_of_split in H2 as (m1 & m2 & ->).
    by exists [], m1, m2.
  - apply elem_of_terminalPaths_cons in H1 as (c & Hkid & Hq1).
    apply elem_of_terminalPaths_cons in H2 as (c2 & Hkid2 & Hq2).
    assert (c2 = c) as ->.
    { apply (Map_get_unique _ _ _ Hnd) in Hkid, Hkid2. congruence. }
    destruct (proj1 (Forall_forall _ _) IH (k, c) Hkid) with (q1 := q1)
      (q2 := q1 ++ ext) as (m1 & m2 & m3 & Htp).
    + by apply (proj1 (Forall_forall _ _) Hall (k, c) Hkid).
    + done.
    + done.
    + intros Heq. apply Hne. simpl. by rewrite <- Heq.
    + by exists ext.
    + simpl in Htp. apply list_elem_of_split in Hkid as (ks1 & ks2 & ->).
      rewrite terminalPaths_unfold. simpl.
      rewrite flat_map_app. simpl. rewrite Htp, map_app. simpl.
      rewrite map_app. simpl.
      set (here := if e then [[]] else []).
      set (f := λ e0 : jsstring * TrieNode,
                  map (cons (fst e0)) (terminalPaths (snd e0))).
      exists (here ++ flat_map f ks1 ++ map (cons k) m1), (map (cons k) m2),
        (map (cons k) m3 ++ flat_map f ks2).
      rewrite <- !app_assoc. simpl. do 3 f_equal.
      by rewrite <- !app_assoc.
Qed.

Section order.
Context `{Builtins}.

Lemma subtree_path_word d lp sub q :
  consistent d →
  nodeAt (codePoints lp) (root d) = Some sub →
  q ∈ terminalPaths sub →
  codePoints (lp ++ concat q) = codePoints lp ++ q.
Proof.
  intros Hd Hsub Hq.
  pose proof (uniqueKeys_nodeAt _ _ _ (consistent_keys d Hd) Hsub) as Huk.
  apply (elem_of_terminalPaths sub Huk) in Hq.
  rewrite <- (entry_app _ _ _ _ Hsub) in Hq.
  apply (consistent_trie d Hd) in Hq as (w' & Hw' & Hpath).
  by rewrite <- (concat_path_word _ _ _ Hpath).
Qed.

Lemma subtreeWords_order d lp w1 w2 :
  consistent d →
  w1 ∈ subtreeWords d lp → w2 ∈ subtreeWords d lp →
  w1 ≠ w2 → codePoints w1 `prefix_of` codePoints w2 →
  ∃ l1 l2 l3, subtreeWords d lp = l1 ++ w1 :: l2 ++ w2 :: l3.
Proof.
  intros Hd. unfold subtreeWords.
  destruct (nodeAt (codePoints lp) (root d)) as [sub|] eqn:Hsub;
    [|by intros ?%elem_of_nil].
  pose proof (uniqueKeys_nodeAt _ _ _ (consistent_keys d Hd) Hsub) as Huk.
  unfold terminals. as_fmap.
  intros (q1 & -> & Hq1)%list_elem_of_fmap (q2 & -> & Hq2)%list_elem_of_fmap
    Hne Hpre.
  rewrite (subtree_path_word d lp sub q1 Hd Hsub Hq1) in Hpre.
  rewrite (subtree_path_word d lp sub q2 Hd Hsub Hq2) in Hpre.
  apply prefix_app_inv in Hpre.
  destruct (terminalPaths_order sub Huk q1 q2 Hq1 Hq2) as (l1 & l2 & l3 & ->);
    [congruence | done |].
  rewrite fmap_app, fmap_cons, fmap_app, fmap_cons. by eexists _, _, _.
Qed.

End order.

(** X23. In the answer of [getAutoSuggestions] a word comes before every
    returned word that extends it by further characters. *)
Theorem suggestions_shorter_first `{Builtins}
    (inserts : list (jsstring * jsstring)) (prefix : jsstring)
    (maxSuggestions : Z) :
  0 ≤ maxSuggestions →
  ∃ d r,
    insertAll inserts newWordDictionary = Normal d ∧
    getAutoSuggestions d prefix maxSuggestions = Normal r ∧
    ∀ w1 w2,
      w1 ∈ r → w2 ∈ r → w1 ≠ w2 →
      codePoints w1 `prefix_of` codePoints w2 →
      ∃ i j, (i < j)%nat ∧ r !! i = Some w1 ∧ r !! j = Some w2.
Proof.
  intros Hmax. destruct (built inserts) as (d & Hd & Hc & _).
  eexists d, _. split; [done|].
  split; [by apply getAutoSuggestions_spec|].
  set (T := subtreeWords d (toLowerCase prefix)).
  intros w1 w2 H1 H2 Hne Hpre.
  pose proof (NoDup_subtreeWords d (toLowerCase prefix) Hc) as Hnd.
  fold T in Hnd.
  destruct (subtreeWords_order d (toLowerCase prefix) w1 w2 Hc) as
    (l1 & l2 & l3 & HT);
    [by apply (subseteq_take (Z.to_nat maxSuggestions) T w1) |
     by apply (subseteq_take (Z.to_nat maxSuggestions) T w2) | done | done |].
  fold T in HT.
  assert (T !! length l1 = Some w1) as Hi.
  { rewrite HT. by apply list_lookup_middle. }
  assert (T !! length (l1 ++ w1 :: l2) = Some w2) as Hj.
  { rewrite HT.
    replace (l1 ++ w1 :: l2 ++ w2 :: l3) with ((l1 ++ w1 :: l2) ++ w2 :: l3)
      by (by rewrite <- app_assoc).
    by apply list_lookup_middle. }
  apply elem_of_take in H2 as (j & Hj' & Hlt).
  rewrite (NoDup_lookup T _ _ w2 Hnd Hj' Hj) in Hlt.
  rewrite length_app in Hlt, Hj. simpl in Hlt, Hj.
  exists (length l1), (length l1 + S (length l2))%nat.
  split; [lia|]. rewrite !lookup_take, !decide_True by lia. done.
Qed.

Lemma suggestions_shorter_first_witness :
  0 ≤ 10 ∧
  ∃ d r,
    insertAll (H := asciiHost)
      ((lit "apricot", []) :: scenarioInserts) newWordDictionary = Normal d ∧
    getAutoSuggestions (H := asciiHost) d (lit "a") 10 = Normal r ∧
    ∀ w1 w2,
      w1 ∈ r → w2 ∈ r → w1 ≠ w2 →
      codePoints w1 `prefix_of` codePoints w2 →
      ∃ i j, (i < j)%nat ∧ r !! i = Some w1 ∧ r !! j = Some w2.
Proof.
  split; [lia|].
  apply (suggestions_shorter_first (H := asciiHost)
           ((lit "apricot", []) :: scenarioInserts) (lit "a") 10).
  lia.
Defined.
